(** * LTrail dashboard: adaptive trace polling and flow-graph construction

    A shallow embedding of the frontend code of the LTrail dashboard:
    - [frontend/src/hooks/useTracePolling.jsx]  (module [Poller]),
    - [frontend/src/components/TraceList.jsx]   (module [TraceList]),
    - [frontend/src/components/TraceViewer.jsx] (module [TraceViewer]),
    followed by what is proved of each ([PollerFacts], [TraceListFacts],
    [TraceViewerFacts]).

    The hook is modelled as the event loop sees it: one event is one turn
    in which React runs the effect or its cleanup, the browser fires an
    interval timer, or the promise a [poll] is awaiting settles.  The
    component state of the viewer is threaded through a state-and-exception
    monad.

    JavaScript numbers that the code only ever uses as array lengths, array
    indices or counters are natural numbers; the polling period, which the
    code computes with a division by 3, is an exact rational. *)

From stdpp Require Import base numbers option list gmap strings pretty.
From Stdlib Require Import QArith Qminmax Lqa Ascii.

#[local] Set Warnings "-register-all".
Local Open Scope string_scope.
Local Open Scope list_scope.
Local Open Scope nat_scope.

(* ===================================================================== *)
(** * JavaScript values and rendered markup *)
(* ===================================================================== *)

Module Js.

(** Values produced by [JSON.parse], plus [undefined]. *)
Inductive jsval :=
| JUndefined
| JNull
| JBool (b : bool)
| JNum (q : Q)
| JStr (s : string)
| JArr (items : list jsval)
| JObj (fields : list (string * jsval)).

(** ToBoolean. *)
Definition truthy (v : jsval) : bool :=
  match v with
  | JUndefined | JNull => false
  | JBool b => b
  | JNum q => negb (Qeq_bool q 0)
  | JStr s => negb (String.eqb s "")
  | JArr _ | JObj _ => true
  end.

(** [a || b] *)
Definition js_or (a b : jsval) : jsval := if truthy a then a else b.

(** [v === 'lit'] for a string literal. *)
Definition strict_eq_str (v : jsval) (lit : string) : bool :=
  match v with
  | JStr s => String.eqb s lit
  | _ => false
  end.

Definition nullish (v : jsval) : bool :=
  match v with
  | JUndefined | JNull => true
  | _ => false
  end.

Fixpoint assoc (k : string) (fields : list (string * jsval)) : jsval :=
  match fields with
  | [] => JUndefined
  | (k', v) :: rest => if String.eqb k k' then v else assoc k rest
  end.

(** What [v.k] evaluates to when [v] is neither [null] nor [undefined].
    The property names read by the dashboard ([status], [name],
    [step_type], [steps]) are own properties of objects only; on a
    string, number, boolean or array they are [undefined]. *)
Definition field (v : jsval) (k : string) : jsval :=
  match v with
  | JObj fields => assoc k fields
  | _ => JUndefined
  end.

(** Errors a promise can reject with or a statement can throw. *)
Inductive js_error :=
| TypeError
| SyntaxError
| NetworkError.

(** Rendered markup: text, an embedded expression [{v}], or an element
    with its attributes and children. *)
Inductive vnode :=
| VText (s : string)
| VExpr (v : jsval)
| VElem (tag : string) (attrs : list (string * string)) (children : list vnode).

Definition has_attr (a : string) (attrs : list (string * string)) : bool :=
  existsb (λ kv, String.eqb (fst kv) a) attrs.

(** [document.querySelectorAll('[a]')]: the elements carrying attribute
    [a], in document order. *)
Fixpoint querySelectorAll (a : string) (d : vnode) : list vnode :=
  match d with
  | VElem tag attrs children =>
      (if has_attr a attrs then [d] else []) ++
      flat_map (querySelectorAll a) children
  | _ => []
  end.

(** ** Strings *)

(** [s.split(sep)] for a separator of one character. *)
Fixpoint split (sep : ascii) (s : string) : list string :=
  match s with
  | "" => [""]
  | String c rest =>
      if Ascii.eqb c sep then "" :: split sep rest
      else match split sep rest with
           | first :: others => String c first :: others
           | [] => [String c ""]
           end
  end.

(** The white space [parseInt] skips, as far as it is made of single
    bytes: tab, line feed, vertical tab, form feed, carriage return and
    space. *)
Definition is_space (c : ascii) : bool :=
  let n := N_of_ascii c in
  ((9 <=? n) && (n <=? 13))%N || (n =? 32)%N.

(** The value of a digit in a radix up to 16. *)
Definition digit_value (c : ascii) : option N :=
  let n := N_of_ascii c in
  if ((48 <=? n) && (n <=? 57))%N then Some (n - 48)%N
  else if ((97 <=? n) && (n <=? 102))%N then Some (n - 87)%N
  else if ((65 <=? n) && (n <=? 70))%N then Some (n - 55)%N
  else None.

Fixpoint skip_spaces (s : string) : string :=
  match s with
  | String c rest => if is_space c then skip_spaces rest else s
  | "" => ""
  end.

(** The longest prefix of digits of the radix, read as a number; [acc] is
    the number read so far, [None] when no digit was read yet. *)
Fixpoint read_digits (radix : N) (s : string) (acc : option N) : option N :=
  match s with
  | String c rest =>
      match digit_value c with
      | Some d =>
          if (d <? radix)%N
          then read_digits radix rest (Some (radix * default 0 acc + d))%N
          else acc
      | None => acc
      end
  | "" => acc
  end.

(** [parseInt(s)] without a radix; [None] is [NaN].  Integers are exact
    (a JavaScript number is, below 2^53). *)
Definition parseInt (s : string) : option Z :=
  let s := skip_spaces s in
  let '(negative, s) :=
    match s with
    | String "-"%char rest => (true, rest)
    | String "+"%char rest => (false, rest)
    | _ => (false, s)
    end in
  let '(radix, s) :=
    match s with
    | String "0"%char (String "x"%char rest) => (16%N, rest)
    | String "0"%char (String "X"%char rest) => (16%N, rest)
    | _ => (10%N, s)
    end in
  match read_digits radix s None with
  | Some n => Some (if negative : bool then - Z.of_N n else Z.of_N n)%Z
  | None => None
  end.

End Js.

(* ===================================================================== *)
(** * useTracePolling.jsx *)
(* ===================================================================== *)

Module Poller.
Import Js.

(** The three [useRef] cells of the hook, the browser's table of live
    interval timers, the suspended invocations of [poll] (each one is
    parked at [await fetchTraces()] and remembers its [previousCount]),
    and whether an effect is currently mounted. *)
Record state := mkState {
  lastTraceCountRef : nat;
  intervalRef : option nat;
  consecutiveNoChangeRef : nat;
  timers : gmap nat Q;
  next_handle : nat;
  inflight : list nat;
  mounted : option bool
}.

(** First render: refs as given to [useRef]; timer handles are the
    positive integers. *)
Definition init : state :=
  mkState 0 None 0 ∅ 1 [] None.

(** What one event makes the hook do to the outside world. *)
Inductive action :=
| CallFetch
| ClearInterval (h : nat)
| SetInterval (h : nat) (period : Q)
| PollRejected.

Inductive event :=
| RunEffect (enabled : bool)
| Cleanup
| TimerFires (h : nat)
| FetchFulfilled (k : nat) (document : vnode)
| FetchRejected (k : nat).

Definition set_lastTraceCount (n : nat) (s : state) : state :=
  mkState n (intervalRef s) (consecutiveNoChangeRef s) (timers s)
          (next_handle s) (inflight s) (mounted s).

Definition set_consecutiveNoChange (n : nat) (s : state) : state :=
  mkState (lastTraceCountRef s) (intervalRef s) n (timers s)
          (next_handle s) (inflight s) (mounted s).

Definition set_inflight (l : list nat) (s : state) : state :=
  mkState (lastTraceCountRef s) (intervalRef s) (consecutiveNoChangeRef s)
          (timers s) (next_handle s) l (mounted s).

Definition set_mounted (m : option bool) (s : state) : state :=
  mkState (lastTraceCountRef s) (intervalRef s) (consecutiveNoChangeRef s)
          (timers s) (next_handle s) (inflight s) m.

(** [clearInterval(h)] *)
Definition clearInterval (h : nat) (s : state) : state :=
  mkState (lastTraceCountRef s) (intervalRef s) (consecutiveNoChangeRef s)
          (delete h (timers s)) (next_handle s) (inflight s) (mounted s).

(** [intervalRef.current = setInterval(poll, period)] *)
Definition setInterval_into_ref (period : Q) (s : state) : state :=
  mkState (lastTraceCountRef s) (Some (next_handle s))
          (consecutiveNoChangeRef s)
          (<[next_handle s := period]> (timers s))
          (S (next_handle s)) (inflight s) (mounted s).

(** [if (intervalRef.current)]: [null] and [0] are falsy. *)
Definition ref_truthy (r : option nat) : option nat :=
  match r with
  | Some (S h) => Some (S h)
  | _ => None
  end.

(** [if (intervalRef.current) { clearInterval(intervalRef.current);
     intervalRef.current = setInterval(poll, period); }] *)
Definition rearm (period : Q) (s : state) : state * list action :=
  match ref_truthy (intervalRef s) with
  | Some h =>
      let s1 := clearInterval h s in
      (setInterval_into_ref period s1,
       [ClearInterval h; SetInterval (next_handle s1) period])
  | None => (s, [])
  end.

(** [Math.min(30000, 10000 * (1 + consecutiveNoChangeRef.current / 3))] *)
Definition newInterval (c : nat) : Q :=
  Qmin 30000 (10000 * (1 + inject_Z (Z.of_nat c) / 3)).

(** [document.querySelectorAll('[data-trace-id]')?.length || 0] *)
Definition currentCount (document : vnode) : nat :=
  let n := length (querySelectorAll "data-trace-id" document) in
  if n =? 0 then 0 else n.

(** [poll] up to its [await]: read the ref, call [fetchTraces], park. *)
Definition poll_start (s : state) : state * list action :=
  let previousCount := lastTraceCountRef s in
  (set_inflight (inflight s ++ [previousCount]) s, [CallFetch]).

(** [poll] after its [await], once [fetchTraces()] has fulfilled. *)
Definition poll_resume (previousCount : nat) (document : vnode) (s : state)
  : state * list action :=
  let currentCount := currentCount document in
  let '(s1, acts) :=
    if currentCount =? previousCount then
      let s1 := set_consecutiveNoChange (S (consecutiveNoChangeRef s)) s in
      if 3 <? consecutiveNoChangeRef s1 then
        rearm (newInterval (consecutiveNoChangeRef s1)) s1
      else (s1, [])
    else
      rearm 10000 (set_consecutiveNoChange 0 s)
  in (set_lastTraceCount currentCount s1, acts).

(** The body of the effect and the cleanup it returns. *)
Definition run_effect (enabled : bool) (s : state) : state * list action :=
  if negb enabled then (set_mounted (Some false) s, [])
  else
    let '(s1, a1) := poll_start s in
    let s2 := setInterval_into_ref 10000 s1 in
    (set_mounted (Some true) s2, a1 ++ [SetInterval (next_handle s1) 10000]).

Definition cleanup (s : state) : state * list action :=
  match ref_truthy (intervalRef s) with
  | Some h => (clearInterval h s, [ClearInterval h])
  | None => (s, [])
  end.

(** One turn of the event loop.  [None]: the event cannot happen in [s]
    (React runs an effect only after the previous one was cleaned up, the
    browser only fires live timers, only a parked invocation can settle). *)
Definition step (s : state) (e : event) : option (state * list action) :=
  match e with
  | RunEffect enabled =>
      match mounted s with
      | None => Some (run_effect enabled s)
      | Some _ => None
      end
  | Cleanup =>
      match mounted s with
      | Some true =>
          let '(s1, a) := cleanup s in Some (set_mounted None s1, a)
      | Some false => Some (set_mounted None s, [])
      | None => None
      end
  | TimerFires h =>
      match timers s !! h with
      | Some _ => Some (poll_start s)
      | None => None
      end
  | FetchFulfilled k document =>
      match inflight s !! k with
      | Some previousCount =>
          Some (poll_resume previousCount document
                  (set_inflight (delete k (inflight s)) s))
      | None => None
      end
  | FetchRejected k =>
      match inflight s !! k with
      | Some _ =>
          Some (set_inflight (delete k (inflight s)) s, [PollRejected])
      | None => None
      end
  end.

Fixpoint run (s : state) (es : list event) : option (state * list action) :=
  match es with
  | [] => Some (s, [])
  | e :: es' =>
      match step s e with
      | Some (s1, a1) =>
          match run s1 es' with
          | Some (s2, a2) => Some (s2, a1 ++ a2)
          | None => None
          end
      | None => None
      end
  end.

Inductive reachable : state → Prop :=
| reachable_init : reachable init
| reachable_step s e s' acts :
    reachable s → step s e = Some (s', acts) → reachable s'.

(** The period of the timer [intervalRef.current] designates, if that
    timer is live. *)
Definition armed_period (s : state) : option Q :=
  h ← intervalRef s; timers s !! h.

(** The state the event sequence [es] leads to from the first render. *)
Definition after (es : list event) : state :=
  from_option fst init (run init es).

(** Events of a stretch in which no change is observed: a timer fires, or
    a fetch fulfils and the count measured then equals the count its
    invocation had read before the call. *)
Definition no_change (s : state) (e : event) : bool :=
  match e with
  | TimerFires _ => true
  | FetchFulfilled k document =>
      bool_decide (inflight s !! k = Some (currentCount document))
  | _ => false
  end.

Inductive stable_run : state → state → Prop :=
| stable_done s : stable_run s s
| stable_next s e s1 acts s2 :
    no_change s e = true → step s e = Some (s1, acts) →
    stable_run s1 s2 → stable_run s s2.

(** A document showing [n] elements tagged with a trace identifier. *)
Definition document_with (n : nat) : vnode :=
  VElem "div" [] (replicate n (VElem "div" [("data-trace-id", "t")] [])).

(** Activation, then three timer periods in which the document never
    shows a tagged element; the fourth invocation is parked at its
    [await]. *)
Definition three_quiet_cycles : list event :=
  [RunEffect true; FetchFulfilled 0 (document_with 0);
   TimerFires 1; FetchFulfilled 0 (document_with 0);
   TimerFires 1; FetchFulfilled 0 (document_with 0);
   TimerFires 1].

(** States reached when React never runs the cleanup while an invocation
    of [poll] is parked at its [await]. *)
Inductive orderly : state → Prop :=
| orderly_init : orderly init
| orderly_step s e s' acts :
    orderly s → step s e = Some (s', acts) →
    (e = Cleanup → inflight s = []) → orderly s'.

Definition is_RunEffect (e : event) : bool :=
  match e with RunEffect _ => true | _ => false end.

(** The events in which [poll] is called: an activation and a timer
    firing. *)
Definition starts_poll (e : event) : bool :=
  match e with
  | RunEffect enabled => enabled
  | TimerFires _ => true
  | _ => false
  end.

Definition is_CallFetch (a : action) : bool :=
  match a with CallFetch => true | _ => false end.

Fixpoint count {A} (f : A → bool) (l : list A) : nat :=
  match l with
  | [] => 0
  | a :: l' => (if f a then 1 else 0) + count f l'
  end.

(** ** Invocations that do not overlap *)








End Poller.


(* ===================================================================== *)
(** * TraceList.jsx *)
(* ===================================================================== *)

Module TraceList.
Import Js.

(** An element of the [traces] prop.  [created_at] is the instant, in
    milliseconds, that [new Date(trace.created_at)] denotes; [None] stands
    for a falsy [created_at], [step_count = None] for a missing or zero
    [step_count]. *)
Record trace_summary := mkSummary {
  trace_id : string;
  name : string;
  status : string;
  step_count : option nat;
  created_at : option Z
}.

Definition getStatusColor (status : string) : string :=
  if String.eqb status "completed" then
    "bg-emerald-500/20 text-emerald-400 border-emerald-500/30"
  else if String.eqb status "error" then
    "bg-red-500/20 text-red-400 border-red-500/30"
  else if String.eqb status "in_progress" then
    "bg-amber-500/20 text-amber-400 border-amber-500/30"
  else
    "bg-gray-500/20 text-gray-400 border-gray-500/30".

Section Render.
(** [new Date()] at render time, and [date.toLocaleDateString()]. *)
Variable now : Z.
Variable toLocaleDateString : Z → string.

Definition formatDate (dateString : option Z) : string :=
  match dateString with
  | None => "Unknown"
  | Some date =>
      let diffMs := (now - date)%Z in
      let diffMins := (diffMs / 60000)%Z in
      let diffHours := (diffMs / 3600000)%Z in
      let diffDays := (diffMs / 86400000)%Z in
      if (diffMins <? 1)%Z then "Just now"
      else if (diffMins <? 60)%Z then pretty diffMins +:+ "m ago"
      else if (diffHours <? 24)%Z then pretty diffHours +:+ "h ago"
      else if (diffDays <? 7)%Z then pretty diffDays +:+ "d ago"
      else toLocaleDateString date
  end.

Definition clipboard_icon : vnode :=
  VElem "svg" [("class", "w-3.5 h-3.5"); ("fill", "none");
               ("stroke", "currentColor"); ("viewBox", "0 0 24 24")]
    [VElem "path"
       [("stroke-linecap", "round"); ("stroke-linejoin", "round");
        ("stroke-width", "2");
        ("d", "M9 5H7a2 2 0 00-2 2v12a2 2 0 002 2h10a2 2 0 002-2V7a2 2 0 00-2-2h-2M9 5a2 2 0 002 2h2a2 2 0 002-2M9 5a2 2 0 012-2h2a2 2 0 012 2")]
       []].

Definition clock_icon : vnode :=
  VElem "svg" [("class", "w-3.5 h-3.5"); ("fill", "none");
               ("stroke", "currentColor"); ("viewBox", "0 0 24 24")]
    [VElem "path"
       [("stroke-linecap", "round"); ("stroke-linejoin", "round");
        ("stroke-width", "2");
        ("d", "M12 8v4l3 3m6-3a9 9 0 11-18 0 9 9 0 0118 0z")]
       []].

(** The element [traces.map] returns for one trace.  [key] and
    [onClick] are props of React, not attributes of the element. *)
Definition trace_entry (selectedTraceId : option string)
    (trace : trace_summary) : vnode :=
  VElem "div"
    [("class",
      "group relative mb-2 p-3 rounded-lg border cursor-pointer transition-all " +:+
      (if bool_decide (selectedTraceId = Some (trace_id trace))
       then "bg-[#1a1a1a] border-indigo-500/50 shadow-lg shadow-indigo-500/10"
       else "bg-[#0f0f0f] border-[#1f1f1f] hover:bg-[#151515] hover:border-[#2a2a2a]"))]
    [VElem "div" [("class", "flex items-start justify-between gap-2 mb-2")]
       [VElem "h3"
          [("class", "text-sm font-medium text-gray-200 flex-1 line-clamp-2 group-hover:text-gray-100 transition-colors")]
          [VText (name trace)];
        VElem "span"
          [("class",
            "px-2 py-0.5 rounded-md text-[10px] font-medium border flex-shrink-0 " +:+
            getStatusColor (status trace))]
          [VText (status trace)]];
     VElem "div" [("class", "flex items-center gap-3 text-xs text-gray-500 mb-2")]
       [VElem "span" [("class", "flex items-center gap-1")]
          [clipboard_icon;
           VText (pretty (default 0 (step_count trace)));
           VText " steps"];
        VElem "span" [("class", "flex items-center gap-1")]
          [clock_icon;
           VText (formatDate (created_at trace))]];
     VElem "div" [("class", "mt-2 pt-2 border-t border-[#1f1f1f]")]
       [VElem "code" [("class", "text-[10px] text-gray-600 font-mono")]
          [VText (String.substring 0 16 (trace_id trace));
           VText "..."]]].

Definition empty_placeholder : vnode :=
  VElem "div" [("class", "p-8 text-center")]
    [VElem "div"
       [("class", "w-12 h-12 bg-[#1f1f1f] rounded-lg flex items-center justify-center mx-auto mb-3")]
       [VElem "svg" [("class", "w-6 h-6 text-gray-600"); ("fill", "none");
                     ("stroke", "currentColor"); ("viewBox", "0 0 24 24")]
          [VElem "path"
             [("stroke-linecap", "round"); ("stroke-linejoin", "round");
              ("stroke-width", "2");
              ("d", "M9 12h6m-6 4h6m2 5H7a2 2 0 01-2-2V5a2 2 0 012-2h5.586a1 1 0 01.707.293l5.414 5.414a1 1 0 01.293.707V19a2 2 0 01-2 2z")]
             []]];
     VElem "p" [("class", "text-sm font-medium text-gray-400 mb-1")]
       [VText "No traces yet"];
     VElem "p" [("class", "text-xs text-gray-600")]
       [VText "Run your application with LTrail SDK"]].

(** The entries of the list, one per trace, in order. *)
Definition entries (traces : list trace_summary)
    (selectedTraceId : option string) : list vnode :=
  map (trace_entry selectedTraceId) traces.

Definition TraceList (traces : list trace_summary)
    (selectedTraceId : option string) : vnode :=
  VElem "div" [("class", "flex flex-col h-full")]
    [VElem "div" [("class", "px-4 py-4 border-b border-[#1f1f1f]")]
       [VElem "h2" [("class", "text-sm font-semibold text-gray-200 mb-1")]
          [VText "Traces"];
        VElem "p" [("class", "text-xs text-gray-500")]
          [VText "View execution history"]];
     VElem "div" [("class", "flex-1 overflow-y-auto")]
       [if length traces =? 0 then empty_placeholder
        else VElem "div" [("class", "p-2")]
               (entries traces selectedTraceId)]].

End Render.

Definition sample_trace : trace_summary :=
  mkSummary "3f2c9a1e-7b4d-4c1a-9e0f-5d6a7b8c9d0e" "competitor selection"
            "completed" (Some 3) (Some 0%Z).

End TraceList.

(* ===================================================================== *)
(** * TraceViewer.jsx *)
(* ===================================================================== *)

Module TraceViewer.
Import Js.

Record node_style := mkNodeStyle {
  background : string;
  borderRadius : string;
  border : string;
  padding : string;
  minWidth : string;
  maxWidth : string;
  color : string;
  cursor : string;
  fontSize : string;
  fontWeight : nat;
  boxShadow : string
}.

Record position := mkPosition { x : nat; y : nat }.

Record node := mkNode {
  node_id : string;
  node_position : position;
  label : vnode;
  node_style_of : node_style;
  draggable : bool
}.

(** [MarkerType] of reactflow. *)
Inductive MarkerType := Arrow | ArrowClosed.

Record marker := mkMarker {
  marker_type : MarkerType;
  width : nat;
  height : nat;
  marker_color : string
}.

Record edge := mkEdge {
  edge_id : string;
  source : string;
  target : string;
  edge_type : string;
  stroke : string;
  strokeWidth : nat;
  markerEnd : marker
}.

(** The four pieces of React state of the component. *)
Record viewer := mkViewer {
  trace : jsval;
  selectedStep : option nat;
  nodes : list node;
  edges : list edge
}.

(** The component's state together with what it wrote to the console. *)
Record world := mkWorld {
  ui : viewer;
  console : list (string * js_error)
}.

Definition initial : world := mkWorld (mkViewer JNull None [] []) [].

(** ** Statements that change the world and may throw *)

Inductive completion (A : Type) :=
| Normal (a : A)
| Throw (e : js_error).
Arguments Normal {A} a.
Arguments Throw {A} e.

Definition M (A : Type) : Type := world → completion A * world.

Definition ret {A} (a : A) : M A := λ w, (Normal a, w).

Definition bind {A B} (m : M A) (k : A → M B) : M B :=
  λ w, match m w with
       | (Normal a, w1) => k a w1
       | (Throw e, w1) => (Throw e, w1)
       end.

Definition throw {A} (e : js_error) : M A := λ w, (Throw e, w).

(** [try { body } catch (error) { handler }] *)
Definition try_catch {A} (body : M A) (handler : js_error → M A) : M A :=
  λ w, match body w with
       | (Normal a, w1) => (Normal a, w1)
       | (Throw e, w1) => handler e w1
       end.

Definition lift {A} (c : completion A) : M A := λ w, (c, w).

#[export] Instance M_ret : MRet M := @ret.
#[export] Instance M_bind : MBind M := λ A B k m, bind m k.

Definition setTrace (data : jsval) : M unit :=
  λ w, (Normal (),
        mkWorld (mkViewer data (selectedStep (ui w)) (nodes (ui w))
                          (edges (ui w)))
                (console w)).


Definition setNodes (l : list node) : M unit :=
  λ w, (Normal (),
        mkWorld (mkViewer (trace (ui w)) (selectedStep (ui w)) l
                          (edges (ui w)))
                (console w)).

Definition setEdges (l : list edge) : M unit :=
  λ w, (Normal (),
        mkWorld (mkViewer (trace (ui w)) (selectedStep (ui w)) (nodes (ui w))
                          l)
                (console w)).

Definition console_error (msg : string) (error : js_error) : M unit :=
  λ w, (Normal (), mkWorld (ui w) (console w ++ [(msg, error)])).

(** [v.k]: a [TypeError] on [null] and [undefined]. *)
Definition get_prop (v : jsval) (k : string) : completion jsval :=
  if nullish v then Throw TypeError else Normal (field v k).

(** ** The flow graph *)

Definition getNodeStyle (status : jsval) (nodeColor : string)
    (isSelected : bool) : node_style :=
  {| background :=
       "linear-gradient(135deg, " +:+ nodeColor +:+ "15 0%, " +:+
       nodeColor +:+ "08 100%)";
     borderRadius := "8px";
     border :=
       "1.5px solid " +:+
       (if isSelected then "#818cf8" else nodeColor +:+ "40");
     padding := "10px 12px";
     minWidth := "140px";
     maxWidth := "180px";
     color := "#e5e7eb";
     cursor := "grab";
     fontSize := "11px";
     fontWeight := 500;
     boxShadow :=
       if isSelected then "0 4px 12px rgba(129, 140, 248, 0.2)"
       else "0 2px 8px rgba(0, 0, 0, 0.3)" |}.

(** [const status = step.status || 'success'], with [step.status] read. *)
Definition status_of (raw : jsval) : jsval := js_or raw (JStr "success").

(** [let nodeColor = '#10b981'; if (status === 'error') ... else if ...] *)
Definition nodeColor_of (status : jsval) : string :=
  if strict_eq_str status "error" then "#ef4444"
  else if strict_eq_str status "warning" then "#f59e0b"
  else if strict_eq_str status "partial" then "#3b82f6"
  else "#10b981".

(** The colour the builder gives to a step that is an object. *)
Definition step_color (step : jsval) : string :=
  nodeColor_of (status_of (field step "status")).

(** The object pushed on [newNodes]. *)
Definition make_node (selectedStep : option nat) (index : nat) (step : jsval)
    (status : jsval) (nodeColor : string) : node :=
  {| node_id := "step-" +:+ pretty index;
     node_position := {| x := 250; y := index * 100 + 50 |};
     label :=
       VElem "div" [("class", "text-center max-w-full break-words")]
         [VElem "div"
            [("class", "font-semibold text-[11px] leading-tight text-gray-100 mb-1")]
            [VExpr (field step "name")];
          VElem "div"
            [("class", "text-[9px] text-gray-400 bg-[#1f1f1f] rounded px-2 py-0.5 inline-block")]
            [VExpr (field step "step_type")]];
     node_style_of :=
       getNodeStyle status nodeColor (bool_decide (selectedStep = Some index));
     draggable := true |}.

(** The object pushed on [newEdges]. *)
Definition make_edge (index : nat) (nodeColor : string) : edge :=
  {| edge_id := "edge-" +:+ pretty index;
     source := "step-" +:+ pretty (index - 1);
     target := "step-" +:+ pretty index;
     edge_type := "smoothstep";
     stroke := nodeColor +:+ "60";
     strokeWidth := 2;
     markerEnd := {| marker_type := ArrowClosed;
                     width := 18;
                     height := 18;
                     marker_color := nodeColor +:+ "60" |} |}.

(** [steps.forEach((step, index) => { ... })] from [index] on, pushing on
    the two local arrays. *)
Fixpoint forEach_step (selectedStep : option nat) (index : nat)
    (steps : list jsval) (newNodes : list node) (newEdges : list edge)
  : completion (list node * list edge) :=
  match steps with
  | [] => Normal (newNodes, newEdges)
  | step :: rest =>
      match get_prop step "status" with
      | Throw e => Throw e
      | Normal raw =>
          let status := status_of raw in
          let nodeColor := nodeColor_of status in
          let newNodes :=
            newNodes ++ [make_node selectedStep index step status nodeColor] in
          let newEdges :=
            if 0 <? index then newEdges ++ [make_edge index nodeColor]
            else newEdges in
          forEach_step selectedStep (S index) rest newNodes newEdges
      end
  end.

(** The two arrays [updateFlow] builds; only an array has [forEach]. *)
Definition build_flow (selectedStep : option nat) (steps : jsval)
  : completion (list node * list edge) :=
  match steps with
  | JArr items => forEach_step selectedStep 0 items [] []
  | _ => Throw TypeError
  end.

(** [updateFlow], in a render whose [selectedStep] is the given one. *)
Definition updateFlow (selectedStep : option nat) (steps : jsval) : M unit :=
  built ← lift (build_flow selectedStep steps);
  setNodes (fst built);;
  setEdges (snd built).

(** ** Loading a trace *)

(** How the request for the trace detail ends. *)
Inductive response :=
| FetchRejects (e : js_error)
| JsonRejects (e : js_error)
| JsonResolves (data : jsval).

(** [process.env.REACT_APP_API_URL || 'http://localhost:8000']; a variable
    of the environment is a string or is not set. *)
Definition apiUrl (REACT_APP_API_URL : option string) : string :=
  match REACT_APP_API_URL with
  | Some url => if String.eqb url "" then "http://localhost:8000" else url
  | None => "http://localhost:8000"
  end.

(** [await fetch(url)] followed by [await res.json()], on a network that
    answers the request for [url] with [network url]. *)
Definition await_json (network : string → response) (url : string) : M jsval :=
  match network url with
  | FetchRejects e => throw e
  | JsonRejects e => throw e
  | JsonResolves data => ret data
  end.

(** [fetchTrace], in a render whose [traceId] and [selectedStep] are the
    given ones. *)
Definition fetchTrace (REACT_APP_API_URL : option string)
    (network : string → response) (traceId : string)
    (selectedStep : option nat) : M unit :=
  try_catch
    (data ← await_json network
              (apiUrl REACT_APP_API_URL +:+ "/api/traces/" +:+ traceId);
     setTrace data;;
     steps ← lift (get_prop data "steps");
     updateFlow selectedStep (js_or steps (JArr [])))
    (λ error, console_error "Failed to fetch trace:" error).



(** A node with the two style fields that depend on the selection blanked. *)
Definition without_highlight (n : node) : node :=
  let st := node_style_of n in
  mkNode (node_id n) (node_position n) (label n)
    (mkNodeStyle (background st) (borderRadius st) "" (padding st)
       (minWidth st) (maxWidth st) (color st) (cursor st) (fontSize st)
       (fontWeight st) "")
    (draggable n).

(** The node and the edge the loop pushes for a step that is an object,
    and the arrays it has pushed when it ends normally. *)
Definition node_at (selectedStep : option nat) (index : nat) (step : jsval)
  : node :=
  make_node selectedStep index step (status_of (field step "status"))
            (step_color step).

Definition edge_at (index : nat) (step : jsval) : edge :=
  make_edge index (step_color step).

Definition all_nodes (selectedStep : option nat) (items : list jsval)
  : list node :=
  imap (node_at selectedStep) items.

Definition all_edges (items : list jsval) : list edge :=
  imap (λ i, edge_at (S i)) (tail items).

(** Arrays whose elements are neither [null] nor [undefined]. *)
Definition objects (items : list jsval) : Prop :=
  Forall (λ v, nullish v = false) items.

(** A world showing the given nodes and edges, everything else as in [w]. *)
Definition showing (ns : list node) (es : list edge) (w : world) : world :=
  mkWorld (mkViewer (trace (ui w)) (selectedStep (ui w)) ns es) (console w).

(** Steps as the trace detail carries them. *)
Definition step_obj (name status : string) : jsval :=
  JObj [("name", JStr name); ("step_type", JStr "logic");
        ("status", JStr status)].

Definition step_without_status (name : string) : jsval :=
  JObj [("name", JStr name); ("step_type", JStr "logic")].

Definition scenario : list jsval :=
  [step_obj "A" "success"; step_obj "B" "error"; step_without_status "C"].

(** A trace detail with these steps, a backend that serves it, and the
    world once it is loaded. *)
Definition scenario_trace : jsval :=
  JObj [("trace_id", JStr "t-1"); ("name", JStr "demo");
        ("steps", JArr scenario)].

Definition serving (url : string) : response :=
  if String.eqb url "http://localhost:8000/api/traces/t-1"
  then JsonResolves scenario_trace
  else JsonResolves (JObj [("detail", JStr "Trace not found")]).

Definition scenario_loaded : world :=
  snd (fetchTrace None serving "t-1" None initial).

(** [parseInt(node.id.split('-')[1])] in [onNodeClick]: the number handed
    to [setSelectedStep]; [None] is [NaN]. *)
Definition clicked_index (id : string) : option Z :=
  match split "-"%char id !! 1 with
  | Some part => parseInt part
  | None => None
  end.

(** The two style fields of a highlighted node. *)
Definition highlighted (n : node) : Prop :=
  border (node_style_of n) = "1.5px solid #818cf8" ∧
  boxShadow (node_style_of n) = "0 4px 12px rgba(129, 140, 248, 0.2)".

End TraceViewer.

(* ===================================================================== *)
(** * App.jsx *)
(* ===================================================================== *)

Module App.
Import Js.

(** An error object; the code reads its [message] only. *)
Record error := mkError { message : string }.

(** What [fetch] resolves with: the status and how [response.json()]
    settles. *)
Record http_response := mkResponse {
  status : nat;
  body : error + jsval
}.

(** [response.ok] *)
Definition ok (r : http_response) : bool :=
  (200 <=? status r) && (status r <=? 299).

Inductive fetch_result :=
| Rejected (e : error)
| Responded (r : http_response).

(** The state of [App] that [fetchTraces] touches, and the console. *)
Record app := mkApp {
  traces : jsval;
  console : list (string * error)
}.

Definition initial : app := mkApp (JArr []) [].

Section FetchTraces.
(** The message of the [TypeError] that reading a property of [null]
    throws; its wording depends on the engine. *)
Variable null_access_message : string.

(** The [try] block: the error thrown, or the state after [setTraces]. *)
Definition fetchTraces_try (r : fetch_result) (w : app) : error + app :=
  match r with
  | Rejected e => inl e
  | Responded response =>
      if negb (ok response) then
        inl (mkError ("HTTP error! status: " +:+ pretty (status response)))
      else
        match body response with
        | inl e => inl e
        | inr data =>
            if nullish data then inl (mkError null_access_message)
            else inr (mkApp (js_or (field data "traces") (JArr []))
                            (console w))
        end
  end.

(** [fetchTraces], on a network that answers the request with [r]. *)
Definition fetchTraces (r : fetch_result) (w : app) : app :=
  match fetchTraces_try r w with
  | inr w' => w'
  | inl error =>
      if negb (String.eqb (message error) "Failed to fetch")
      then mkApp (traces w) (console w ++ [("Failed to fetch traces:", error)])
      else w
  end.

(** The address requested. *)
Definition traces_url (REACT_APP_API_URL : option string) : string :=
  (match REACT_APP_API_URL with
   | Some url => if String.eqb url "" then "http://localhost:8000" else url
   | None => "http://localhost:8000"
   end) +:+ "/api/traces?limit=100".

(** ** The polling effect of [App] *)

(** The component's state, the browser's interval timers, the handle the
    mounted effect holds in [interval], and the number of calls of
    [fetchTraces] that have not settled. *)
Record loop := mkLoop {
  view : app;
  timers : gmap nat Q;
  next_handle : nat;
  interval : option nat;
  pending : nat
}.

Definition start : loop := mkLoop initial ∅ 1 None 0.

Inductive event :=
| RunEffect
| Cleanup
| TimerFires (h : nat)
| Settles (r : fetch_result).

Definition is_RunEffect (e : event) : bool :=
  match e with RunEffect => true | _ => false end.

(** One turn of the event loop; [None] when the event cannot happen. *)
Definition step (s : loop) (e : event)
  : option (loop * list Poller.action) :=
  match e with
  | RunEffect =>
      match interval s with
      | None =>
          Some (mkLoop (view s) (<[next_handle s := 10000%Q]> (timers s))
                       (S (next_handle s)) (Some (next_handle s))
                       (S (pending s)),
                [Poller.CallFetch; Poller.SetInterval (next_handle s) 10000%Q])
      | Some _ => None
      end
  | Cleanup =>
      match interval s with
      | Some h =>
          Some (mkLoop (view s) (delete h (timers s)) (next_handle s) None
                       (pending s),
                [Poller.ClearInterval h])
      | None => None
      end
  | TimerFires h =>
      match timers s !! h with
      | Some _ =>
          Some (mkLoop (view s) (timers s) (next_handle s) (interval s)
                       (S (pending s)),
                [Poller.CallFetch])
      | None => None
      end
  | Settles r =>
      match pending s with
      | S n =>
          Some (mkLoop (fetchTraces r (view s)) (timers s) (next_handle s)
                       (interval s) n,
                [])
      | 0 => None
      end
  end.

Fixpoint run (s : loop) (es : list event)
  : option (loop * list Poller.action) :=
  match es with
  | [] => Some (s, [])
  | e :: es' =>
      match step s e with
      | Some (s1, a1) =>
          match run s1 es' with
          | Some (s2, a2) => Some (s2, a1 ++ a2)
          | None => None
          end
      | None => None
      end
  end.

Inductive reachable : loop → Prop :=
| reachable_start : reachable start
| reachable_step s e s' acts :
    reachable s → step s e = Some (s', acts) → reachable s'.

End FetchTraces.

(** ** Resizing the sidebar *)

Record sidebar := mkSidebar {
  sidebarWidth : Q;
  isResizing : bool
}.

Definition sidebar_initial : sidebar := mkSidebar 320 false.

Inductive mouse_event :=
| MouseDown
| MouseMove (clientX : Q)
| MouseUp.

(** [handleMouseDown], [handleMouseMove] and [handleMouseUp]. *)
Definition handleMouse (e : mouse_event) (s : sidebar) : sidebar :=
  match e with
  | MouseDown => mkSidebar (sidebarWidth s) true
  | MouseMove clientX =>
      if negb (isResizing s) then s
      else
        let newWidth := clientX in
        if Qle_bool 200 newWidth && Qle_bool newWidth 800
        then mkSidebar newWidth (isResizing s)
        else s
  | MouseUp => mkSidebar (sidebarWidth s) false
  end.

Definition handleMice (es : list mouse_event) (s : sidebar) : sidebar :=
  fold_left (λ s e, handleMouse e s) es s.

End App.

Module PollerFacts.
Import Js Poller.

(** What holds of every state the hook can be in. *)
Record inv (s : state) : Prop := mkInv {
  inv_next : 1 ≤ next_handle s;
  inv_timers : ∀ h p, timers s !! h = Some p → h < next_handle s;
  inv_ref : ∀ h, intervalRef s = Some h → 1 ≤ h < next_handle s;
  inv_parked : inflight s ≠ [] → is_Some (intervalRef s);
  inv_live : ∀ h p, timers s !! h = Some p → is_Some (intervalRef s);
  inv_period : ∀ h p,
    intervalRef s = Some h → timers s !! h = Some p →
    p = 10000%Q ∨
    ∃ c, 3 < c ≤ consecutiveNoChangeRef s ∧ p = newInterval c
}.

Lemma inv_init : inv init.
Proof.
  split; simpl; try done; try lia.
Qed.

Lemma ref_truthy_Some r h : ref_truthy r = Some h → r = Some h ∧ 1 ≤ h.
Proof.
  destruct r as [[|n]|]; simpl; intros [= <-]; split; (done || lia).
Qed.

Lemma ref_truthy_of_inv s h :
  inv s → intervalRef s = Some h → ref_truthy (intervalRef s) = Some h.
Proof.
  intros I E. destruct (inv_ref s I h E) as [H1 _]. rewrite E.
  destruct h; [lia | done].
Qed.

Lemma ref_truthy_parked s k previousCount :
  inv s → inflight s !! k = Some previousCount →
  ∃ h, intervalRef s = Some h ∧ ref_truthy (intervalRef s) = Some h ∧
       1 ≤ h < next_handle s.
Proof.
  intros I Hk.
  destruct (inv_parked s I) as [h Hh].
  { intros E. rewrite E in Hk. done. }
  exists h. split_and!; auto using ref_truthy_of_inv.
  all: apply (inv_ref s I h Hh).
Qed.

(** Linear arithmetic over the counter seen as a rational. *)
Ltac counter_lra :=
  unfold Qdiv; change (/ 3)%Q with (1 # 3)%Q;
  repeat match goal with
         | |- context [inject_Z (Z.of_nat ?c)] =>
             generalize dependent (inject_Z (Z.of_nat c)); intros
         end;
  lra.

Lemma newInterval_mono c c' : c ≤ c' → (newInterval c <= newInterval c')%Q.
Proof.
  intros H. unfold newInterval.
  apply Q.min_le_compat_l.
  assert (inject_Z (Z.of_nat c) <= inject_Z (Z.of_nat c'))%Q
    by (rewrite <- Zle_Qle; lia).
  counter_lra.
Qed.

Lemma newInterval_le_max c : (newInterval c <= 30000)%Q.
Proof. apply Q.le_min_l. Qed.

Lemma newInterval_ge_fast c : (10000 <= newInterval c)%Q.
Proof.
  unfold newInterval. apply Q.min_glb; [lra |].
  assert (0 <= inject_Z (Z.of_nat c))%Q
    by (change 0%Q with (inject_Z 0); rewrite <- Zle_Qle; lia).
  counter_lra.
Qed.

(** The periods of the slow tier: 23333 1/3 ms, 26666 2/3 ms, then the
    ceiling. *)
Lemma newInterval_values :
  (newInterval 4 == 70000 # 3)%Q ∧ (newInterval 5 == 80000 # 3)%Q ∧
  ∀ c, 6 ≤ c → (newInterval c == 30000)%Q.
Proof.
  split_and!; [reflexivity | reflexivity |].
  intros c Hc. unfold newInterval. apply Q.min_l.
  assert (6 <= inject_Z (Z.of_nat c))%Q
    by (change 6%Q with (inject_Z 6); rewrite <- Zle_Qle; lia).
  counter_lra.
Qed.

(** Case analysis on lookups in the timer table after [setInterval] and
    [clearInterval]. *)
Ltac timer_cases :=
  simpl; intros;
  repeat match goal with
         | H : context [<[_ := _]> _ !! _] |- _ => rewrite lookup_insert in H
         | H : context [delete _ _ !! _] |- _ => rewrite lookup_delete in H
         | H : context [decide _] |- _ => destruct (decide _) in H
         | H : Some _ = Some _ |- _ => injection H as H
         | H : None = Some _ |- _ => discriminate H
         | H : _ = _ |- _ => subst
         end.

Ltac use_timers I :=
  match goal with
  | H : timers _ !! _ = Some _ |- _ => specialize (I _ _ H); simpl in I
  end.

Lemma inv_rearm period s :
  inv s →
  (period = 10000%Q ∨
   ∃ c, 3 < c ≤ consecutiveNoChangeRef s ∧ period = newInterval c) →
  (ref_truthy (intervalRef s) = None → intervalRef s = None) →
  inv (fst (rearm period s)).
Proof.
  intros I Hp Hn. unfold rearm.
  destruct (ref_truthy (intervalRef s)) as [h|] eqn:E; simpl; [| done].
  destruct I as [I1 I2 I3 I4 I5 I6].
  split.
  - simpl. lia.
  - timer_cases; [lia | use_timers I2; lia].
  - timer_cases. lia.
  - simpl. eauto.
  - simpl. eauto.
  - timer_cases; [done | lia].
Qed.

Lemma inv_set_inflight l s :
  inv s → (l ≠ [] → is_Some (intervalRef s)) → inv (set_inflight l s).
Proof. intros [I1 I2 I3 I4 I5 I6] H. split; simpl; eauto. Qed.

Lemma inv_set_mounted m s : inv s → inv (set_mounted m s).
Proof. intros [I1 I2 I3 I4 I5 I6]. split; simpl; eauto. Qed.

Lemma inv_set_lastTraceCount n s : inv s → inv (set_lastTraceCount n s).
Proof. intros [I1 I2 I3 I4 I5 I6]. split; simpl; eauto. Qed.

Lemma inv_set_consecutiveNoChange n s :
  inv s →
  (consecutiveNoChangeRef s ≤ n ∨ armed_period s = Some 10000%Q) →
  inv (set_consecutiveNoChange n s).
Proof.
  intros [I1 I2 I3 I4 I5 I6] H. split; simpl; eauto.
  intros h p E1 E2. destruct H as [H|H].
  - destruct (I6 h p E1 E2) as [->|(c & Hc & ->)];
      [by left | right; exists c; split; [lia | done]].
  - unfold armed_period in H. rewrite E1 in H. simpl in H.
    rewrite E2 in H. injection H as ->. by left.
Qed.

Lemma inv_clearInterval h s : inv s → inv (clearInterval h s).
Proof.
  intros [I1 I2 I3 I4 I5 I6]. split; simpl; eauto.
  - timer_cases. eauto.
  - timer_cases. eauto.
  - timer_cases. eauto.
Qed.

Lemma inv_setInterval_fast l s :
  inv s → inv (setInterval_into_ref 10000 (set_inflight l s)).
Proof.
  intros [I1 I2 I3 I4 I5 I6]. split.
  - simpl. lia.
  - timer_cases; [lia | use_timers I2; lia].
  - timer_cases. lia.
  - simpl. eauto.
  - simpl. eauto.
  - timer_cases; [by left | lia].
Qed.

Lemma step_inv_fst s e r : inv s → step s e = Some r → inv (fst r).
Proof.
  intros I. destruct e as [enabled| |h|k document|k]; simpl.
  - destruct (mounted s); [done |]. intros [= <-].
    destruct enabled; simpl.
    + by apply inv_set_mounted, inv_setInterval_fast.
    + by apply inv_set_mounted.
  - destruct (mounted s) as [[|]|]; [| |done].
    + unfold cleanup.
      destruct (ref_truthy (intervalRef s)) as [h|] eqn:E; intros [= <-];
        simpl; auto using inv_set_mounted, inv_clearInterval.
    + intros [= <-]. by apply inv_set_mounted.
  - destruct (timers s !! h) as [p|] eqn:E; [| done]. intros [= <-].
    apply inv_set_inflight; [done |]. intros _. eapply inv_live; eauto.
  - destruct (inflight s !! k) as [previousCount|] eqn:E; [| done].
    intros [= <-].
    destruct (ref_truthy_parked s k previousCount I E) as (h & Hh & Ht & Hl).
    set (s0 := set_inflight (delete k (inflight s)) s).
    assert (I0 : inv s0).
    { apply inv_set_inflight; [done |]. intros _. rewrite Hh. eauto. }
    assert (T0 : ref_truthy (intervalRef s0) = Some h) by done.
    unfold poll_resume.
    destruct (currentCount document =? previousCount).
    + set (s1 := set_consecutiveNoChange (S (consecutiveNoChangeRef s0)) s0).
      assert (I1 : inv s1).
      { apply inv_set_consecutiveNoChange; [done |]. left. lia. }
      destruct (3 <? consecutiveNoChangeRef s1) eqn:Hlt.
      * apply Nat.ltb_lt in Hlt.
        pose proof (inv_rearm (newInterval (consecutiveNoChangeRef s1)) s1 I1)
          as R.
        destruct (rearm _ s1) as [s2 a2] eqn:ER. simpl in R.
        apply inv_set_lastTraceCount, R.
        -- right. exists (S (consecutiveNoChangeRef s)). simpl in Hlt.
           split; [lia | done].
        -- rewrite Ht. done.
      * by apply inv_set_lastTraceCount.
    + set (s1 := set_consecutiveNoChange 0 s0).
      assert (T1 : ref_truthy (intervalRef s1) = Some h) by done.
      unfold rearm. rewrite T1.
      apply inv_set_lastTraceCount.
      change (inv (setInterval_into_ref 10000
                     (set_inflight (delete k (inflight s))
                        (set_consecutiveNoChange 0 (clearInterval h s0))))).
      apply inv_setInterval_fast.
      pose proof (inv_clearInterval h s0 I0) as [I1 I2 I3 I4 I5 I6].
      split; simpl; eauto.
      timer_cases. rewrite Hh in *. timer_cases. done.
  - destruct (inflight s !! k) as [previousCount|] eqn:E; [| done].
    intros [= <-].
    destruct (ref_truthy_parked s k previousCount I E) as (h & Hh & Ht & Hl).
    apply inv_set_inflight; [done |]. intros _. rewrite Hh. eauto.
Qed.

Lemma step_inv s e s' acts : inv s → step s e = Some (s', acts) → inv s'.
Proof. intros I H. apply (step_inv_fst s e (s', acts) I H). Qed.

Lemma reachable_inv s : reachable s → inv s.
Proof.
  induction 1 as [|s e s' acts _ IH Hstep]; eauto using inv_init, step_inv.
Qed.

Lemma run_reachable s es s' acts :
  reachable s → run s es = Some (s', acts) → reachable s'.
Proof.
  revert s s' acts. induction es as [|e es IH]; simpl; intros s s' acts R.
  - by intros [= <- _].
  - destruct (step s e) as [[s1 a1]|] eqn:E1; [| done].
    destruct (run s1 es) as [[s2 a2]|] eqn:E2; [| done].
    intros [= <- _]. eapply IH; [| done]. by eapply reachable_step.
Qed.

Lemma reachable_after es : reachable (after es).
Proof.
  unfold after. destruct (run init es) as [[s a]|] eqn:E; simpl.
  - eapply run_reachable; [apply reachable_init | done].
  - apply reachable_init.
Qed.

Lemma armed_period_bounds s p :
  inv s → armed_period s = Some p → (10000 <= p)%Q ∧ (p <= 30000)%Q.
Proof.
  intros I. unfold armed_period.
  destruct (intervalRef s) as [h|] eqn:Eh; simpl; [| done]. intros Ep.
  destruct (inv_period s I h p Eh Ep) as [->|(c & _ & ->)].
  - split; lra.
  - split; [apply newInterval_ge_fast | apply newInterval_le_max].
Qed.

(** What [poll] does after the [await] when the count is unchanged. *)
Lemma poll_resume_same s k document :
  inv s → inflight s !! k = Some (currentCount document) →
  ∃ h, intervalRef s = Some h ∧ 1 ≤ h < next_handle s ∧
    step s (FetchFulfilled k document) =
    Some (
      let c := S (consecutiveNoChangeRef s) in
      if 3 <? c then
        (mkState (currentCount document) (Some (next_handle s)) c
           (<[next_handle s := newInterval c]> (delete h (timers s)))
           (S (next_handle s)) (delete k (inflight s)) (mounted s),
         [ClearInterval h; SetInterval (next_handle s) (newInterval c)])
      else
        (mkState (currentCount document) (intervalRef s) c (timers s)
           (next_handle s) (delete k (inflight s)) (mounted s), [])).
Proof.
  intros I E.
  destruct (ref_truthy_parked s k _ I E) as (h & Hh & Ht & Hl).
  exists h. split_and!; try done; try lia.
  simpl. rewrite E. unfold poll_resume. rewrite Nat.eqb_refl. simpl.
  destruct (consecutiveNoChangeRef s) as [|[|[|c]]]; simpl; try done.
  all: unfold rearm; simpl; rewrite Ht; done.
Qed.

(** What [poll] does after the [await] when the count has changed. *)
Lemma poll_resume_changed s k previousCount document :
  inv s → inflight s !! k = Some previousCount →
  currentCount document ≠ previousCount →
  ∃ h, intervalRef s = Some h ∧ 1 ≤ h < next_handle s ∧
    step s (FetchFulfilled k document) =
    Some (mkState (currentCount document) (Some (next_handle s)) 0
            (<[next_handle s := 10000%Q]> (delete h (timers s)))
            (S (next_handle s)) (delete k (inflight s)) (mounted s),
          [ClearInterval h; SetInterval (next_handle s) 10000%Q]).
Proof.
  intros I E Hne.
  destruct (ref_truthy_parked s k _ I E) as (h & Hh & Ht & Hl).
  exists h. split_and!; try done; try lia.
  simpl. rewrite E. unfold poll_resume.
  apply Nat.eqb_neq in Hne. rewrite Hne.
  unfold rearm. simpl. rewrite Ht. done.
Qed.

Lemma fresh_handle s : inv s → timers s !! next_handle s = None.
Proof.
  intros I. destruct (timers s !! next_handle s) as [p|] eqn:E; [| done].
  apply (inv_timers s I) in E. lia.
Qed.

Lemma no_change_step_period s e s' acts p :
  inv s → no_change s e = true → step s e = Some (s', acts) →
  armed_period s = Some p →
  ∃ p', armed_period s' = Some p' ∧ (p <= p')%Q.
Proof.
  intros I Hq Hstep Hp. destruct e as [| |h|k document|]; try done.
  - simpl in Hstep. destruct (timers s !! h); [| done].
    injection Hstep as <- _. exists p. split; [done | lra].
  - simpl in Hq. apply bool_decide_eq_true in Hq.
    destruct (poll_resume_same s k document I Hq) as (h & Hh & Hl & Hs).
    rewrite Hs in Hstep. clear Hs. simpl in Hstep.
    unfold armed_period in Hp. rewrite Hh in Hp. simpl in Hp.
    destruct (3 <? S (consecutiveNoChangeRef s)) eqn:Hlt;
      injection Hstep as <- _; unfold armed_period; simpl.
    + rewrite lookup_insert_eq. eexists. split; [done |].
      destruct (inv_period s I h p Hh Hp) as [->|(c & Hc & ->)].
      * apply newInterval_ge_fast.
      * apply newInterval_mono. lia.
    + rewrite Hh. simpl. exists p. split; [done | lra].
Qed.

Lemma stable_run_period s s' p :
  inv s → stable_run s s' → armed_period s = Some p →
  ∃ p', armed_period s' = Some p' ∧ (p <= p')%Q ∧ (p' <= 30000)%Q.
Proof.
  intros I Hrun. revert p I.
  induction Hrun as [s|s e s1 acts s2 Hq Hstep _ IH]; intros p I Hp.
  - exists p. split_and!; [done | lra |].
    by apply (armed_period_bounds s p I).
  - destruct (no_change_step_period s e s1 acts p I Hq Hstep Hp)
      as (p1 & Hp1 & Hle1).
    destruct (IH p1 (step_inv s e s1 acts I Hstep) Hp1)
      as (p2 & Hp2 & Hle2 & Hmax).
    exists p2. split_and!; [done | lra | done].
Qed.

(** The comparison as [poll] makes it, overlapping invocations included:
    when a fetch fulfils and the count of tagged elements equals the count
    that invocation read before the call, the stability counter grows by one;
    whenever the grown counter exceeds 3 the timer is cleared and set
    again with period [min(30000, 10000 * (1 + counter / 3))], and
    otherwise the timer is left alone.  Over any stretch of timer ticks
    and no-change completions the period of the armed timer never
    decreases and never exceeds 30000 ms. *)
Theorem stable_polling_backs_off s :
  reachable s →
  (∀ k document,
     inflight s !! k = Some (currentCount document) →
     ∃ s' acts h,
       step s (FetchFulfilled k document) = Some (s', acts) ∧
       intervalRef s = Some h ∧
       consecutiveNoChangeRef s' = S (consecutiveNoChangeRef s) ∧
       (3 < consecutiveNoChangeRef s' →
        ∃ h' period,
          period = Qmin 30000
                     (10000 * (1 + inject_Z (Z.of_nat
                                   (consecutiveNoChangeRef s')) / 3)) ∧
          acts = [ClearInterval h; SetInterval h' period] ∧
          timers s !! h' = None ∧
          intervalRef s' = Some h' ∧
          timers s' = <[h' := period]> (delete h (timers s)) ∧
          armed_period s' = Some period) ∧
       (consecutiveNoChangeRef s' ≤ 3 →
        acts = [] ∧ intervalRef s' = Some h ∧ timers s' = timers s)) ∧
  (∀ s' p,
     stable_run s s' → armed_period s = Some p →
     ∃ p', armed_period s' = Some p' ∧ (p <= p')%Q ∧ (p' <= 30000)%Q).
Proof.
  intros R. pose proof (reachable_inv s R) as I. split.
  - intros k document E.
    destruct (poll_resume_same s k document I E) as (h & Hh & Hl & Hs).
    rewrite Hs. clear Hs. simpl.
    destruct (3 <? S (consecutiveNoChangeRef s)) eqn:Hlt.
    + apply Nat.ltb_lt in Hlt. eexists _, _, h.
      split_and!; [done | done | done | | simpl; lia].
      intros _. eexists _, _. split_and!; try done.
      * by apply fresh_handle.
      * unfold armed_period. simpl. by rewrite lookup_insert_eq.
    + apply Nat.ltb_ge in Hlt. eexists _, _, h.
      split_and!; [done | done | done | simpl; lia | done].
  - intros s' p Hrun Hp. by apply (stable_run_period s s' p I).
Qed.

(** The comparison as [poll] makes it, overlapping invocations included:
    when a fetch fulfils and the count of tagged elements differs from the
    count that invocation read before the call, the stability counter is reset
    to 0 and the timer is cleared and set again with period 10000 ms,
    whatever its period was; the armed period is then 10000 ms. *)
Theorem change_snaps_back s k previousCount document :
  reachable s →
  inflight s !! k = Some previousCount →
  currentCount document ≠ previousCount →
  ∃ s' h h',
    step s (FetchFulfilled k document)
      = Some (s', [ClearInterval h; SetInterval h' 10000%Q]) ∧
    intervalRef s = Some h ∧
    timers s !! h' = None ∧
    consecutiveNoChangeRef s' = 0 ∧
    intervalRef s' = Some h' ∧
    timers s' = <[h' := 10000%Q]> (delete h (timers s)) ∧
    armed_period s' = Some 10000%Q ∧
    lastTraceCountRef s' = currentCount document.
Proof.
  intros R E Hne. pose proof (reachable_inv s R) as I.
  destruct (poll_resume_changed s k previousCount document I E Hne)
    as (h & Hh & Hl & Hs).
  rewrite Hs. eexists _, h, _. split_and!; try done.
  - by apply fresh_handle.
  - unfold armed_period. simpl. by rewrite lookup_insert_eq.
Qed.

Lemma stable_polling_backs_off_witness :
  reachable (after three_quiet_cycles) ∧
  inflight (after three_quiet_cycles) !! 0
    = Some (currentCount (document_with 0)) ∧
  ∃ s' acts,
    step (after three_quiet_cycles) (FetchFulfilled 0 (document_with 0))
      = Some (s', acts) ∧
    consecutiveNoChangeRef s' = 4 ∧
    ∃ h', acts = [ClearInterval 1; SetInterval h' (newInterval 4)].
Proof.
  split; [apply reachable_after |]. split; [reflexivity |].
  destruct (stable_polling_backs_off (after three_quiet_cycles)
              (reachable_after three_quiet_cycles)) as [H _].
  destruct (H 0 (document_with 0) eq_refl)
    as (s' & acts & h & Hs & Hh & Hc & Hslow & _).
  exists s', acts. split; [exact Hs |].
  assert (Hc' : consecutiveNoChangeRef s' = 4) by (rewrite Hc; reflexivity).
  split; [exact Hc' |].
  destruct Hslow as (h' & period & Hp & Ha & _); [rewrite Hc'; lia |].
  exists h'. rewrite Ha, Hp, Hc'.
  injection Hh as <-. reflexivity.
Defined.

Lemma change_snaps_back_witness :
  reachable (after three_quiet_cycles) ∧
  inflight (after three_quiet_cycles) !! 0 = Some 0 ∧
  currentCount (document_with 2) ≠ 0 ∧
  ∃ s' h h',
    step (after three_quiet_cycles) (FetchFulfilled 0 (document_with 2))
      = Some (s', [ClearInterval h; SetInterval h' 10000%Q]) ∧
    consecutiveNoChangeRef s' = 0 ∧
    armed_period s' = Some 10000%Q.
Proof.
  split; [apply reachable_after |]. split; [reflexivity |].
  split; [vm_compute; lia |].
  destruct (change_snaps_back (after three_quiet_cycles) 0 0
              (document_with 2) (reachable_after three_quiet_cycles)
              eq_refl)
    as (s' & h & h' & Hs & _ & _ & Hc & _ & _ & Hp & _);
    [vm_compute; lia |].
  exists s', h, h'. split_and!; assumption.
Defined.

(** C6.  The cleanup clears the timer [intervalRef.current] designates, but
    an invocation of [poll] parked at its [await] resumes afterwards: its
    fourth no-change observation in a row sets a new interval timer, and
    when that timer fires [fetchTraces] is called again. *)
Theorem fetch_after_cleanup :
  ∃ s s' acts,
    run init (three_quiet_cycles ++ [Cleanup]) = Some (s, acts) ∧
    mounted s = None ∧ timers s = ∅ ∧
    run s [FetchFulfilled 0 (document_with 0); TimerFires 2]
      = Some (s', [ClearInterval 1; SetInterval 2 (newInterval 4);
                   CallFetch]) ∧
    timers s' !! 2 = Some (newInterval 4).
Proof.
  eexists _, _, _. split_and!.
  - vm_compute. reflexivity.
  - reflexivity.
  - reflexivity.
  - vm_compute. reflexivity.
  - vm_compute. reflexivity.
Qed.

(** The same leak right after activation, when the first fetch brings a
    changed count. *)
Lemma fetch_after_cleanup_changed :
  snd <$> run init [RunEffect true; Cleanup;
                    FetchFulfilled 0 (document_with 1); TimerFires 2]
  = Some [CallFetch; SetInterval 1 10000%Q; ClearInterval 1;
          ClearInterval 1; SetInterval 2 10000%Q; CallFetch].
Proof. vm_compute. reflexivity. Qed.

(** C7, as stated, fails: a rejected fetch makes the invocation of [poll]
    reject, and the invocation neither clears nor sets a timer, while the
    same invocation would have set the timer again had the fetch
    fulfilled with a changed count. *)
Lemma rejected_fetch_not_swallowed :
  snd <$> step (after [RunEffect true]) (FetchRejected 0)
    = Some [PollRejected] ∧
  snd <$> step (after [RunEffect true]) (FetchFulfilled 0 (document_with 1))
    = Some [ClearInterval 1; SetInterval 2 10000%Q].
Proof. split; vm_compute; reflexivity. Qed.

(** C7, amended.  When the fetch of a parked invocation rejects, the
    invocation of [poll] rejects too and does nothing else: the three refs
    and the timer table are as before, so the timer armed earlier keeps
    its period and keeps firing. *)
Theorem rejected_fetch_keeps_schedule s k previousCount :
  inflight s !! k = Some previousCount →
  ∃ s',
    step s (FetchRejected k) = Some (s', [PollRejected]) ∧
    lastTraceCountRef s' = lastTraceCountRef s ∧
    consecutiveNoChangeRef s' = consecutiveNoChangeRef s ∧
    intervalRef s' = intervalRef s ∧
    timers s' = timers s ∧
    armed_period s' = armed_period s ∧
    inflight s' = delete k (inflight s) ∧
    (∀ h, is_Some (timers s !! h) →
          snd <$> step s' (TimerFires h) = Some [CallFetch]).
Proof.
  intros E. simpl. rewrite E. eexists. split_and!; try done.
  intros h [p Hp]. simpl. rewrite Hp. done.
Qed.

Lemma rejected_fetch_keeps_schedule_witness :
  inflight (after three_quiet_cycles) !! 0 = Some 0 ∧
  ∃ s',
    step (after three_quiet_cycles) (FetchRejected 0)
      = Some (s', [PollRejected]) ∧
    armed_period s' = Some 10000%Q ∧
    snd <$> step s' (TimerFires 1) = Some [CallFetch].
Proof.
  split; [reflexivity |].
  destruct (rejected_fetch_keeps_schedule (after three_quiet_cycles) 0 0
              eq_refl)
    as (s' & Hs & _ & _ & _ & _ & Hp & _ & Hfire).
  exists s'. split_and!.
  - exact Hs.
  - rewrite Hp. reflexivity.
  - apply Hfire. exists 10000%Q. reflexivity.
Defined.

(** ** Further properties of the hook *)

Lemma rearm_no_fetch period s : count is_CallFetch (snd (rearm period s)) = 0.
Proof. unfold rearm. by destruct (ref_truthy (intervalRef s)). Qed.

Lemma step_fetch_count_snd s e r :
  step s e = Some r →
  count is_CallFetch (snd r) = if starts_poll e then 1 else 0.
Proof.
  destruct e as [enabled| |h|k document|k]; simpl.
  - destruct (mounted s); [done |]. intros [= <-]. by destruct enabled.
  - destruct (mounted s) as [[|]|]; [| by intros [= <-] | done].
    unfold cleanup. destruct (ref_truthy (intervalRef s)); by intros [= <-].
  - destruct (timers s !! h); [| done]. by intros [= <-].
  - destruct (inflight s !! k) as [previousCount|]; [| done].
    intros [= <-]. unfold poll_resume.
    destruct (currentCount document =? previousCount).
    + destruct (3 <? _); [| done].
      match goal with
      | |- context [rearm ?p ?s0] =>
          pose proof (rearm_no_fetch p s0) as H0;
          destruct (rearm p s0) as [s1 a1]
      end.
      done.
    + match goal with
      | |- context [rearm ?p ?s0] =>
          pose proof (rearm_no_fetch p s0) as H0;
          destruct (rearm p s0) as [s1 a1]
      end.
      done.
  - destruct (inflight s !! k); [| done]. by intros [= <-].
Qed.

Lemma step_fetch_count s e s' acts :
  step s e = Some (s', acts) →
  count is_CallFetch acts = if starts_poll e then 1 else 0.
Proof. apply (step_fetch_count_snd s e (s', acts)). Qed.

Lemma count_app {A} (f : A → bool) l1 l2 :
  count f (l1 ++ l2) = count f l1 + count f l2.
Proof. induction l1 as [|a l1 IH]; simpl; [done | rewrite IH; lia]. Qed.

(** X2.  [fetchTraces] is called once when the effect runs enabled and once each
    time a timer fires, and at no other moment: not when a fetch settles,
    not by the cleanup, not when the effect runs disabled. *)
Theorem fetch_called_once_per_poll s es s' acts :
  run s es = Some (s', acts) →
  count is_CallFetch acts = count starts_poll es.
Proof.
  revert s s' acts. induction es as [|e es IH]; simpl; intros s s' acts.
  - by intros [= _ <-].
  - destruct (step s e) as [[s1 a1]|] eqn:E1; [| done].
    destruct (run s1 es) as [[s2 a2]|] eqn:E2; [| done].
    intros [= _ <-]. rewrite count_app, (IH _ _ _ E2).
    by rewrite (step_fetch_count _ _ _ _ E1).
Qed.

Lemma fetch_called_once_per_poll_witness :
  ∃ s' acts,
    run init (three_quiet_cycles ++ [Cleanup]) = Some (s', acts) ∧
    count is_CallFetch acts = 4.
Proof.
  destruct (run init (three_quiet_cycles ++ [Cleanup])) as [[s' acts]|] eqn:E;
    [| vm_compute in E; discriminate E].
  exists s', acts. split; [reflexivity |].
  rewrite (fetch_called_once_per_poll init _ s' acts E). reflexivity.
Defined.

(** Every timer in the table was set by the hook at 10000 ms or at a period
    of the slow tier. *)
Definition periods_known (s : state) : Prop :=
  ∀ h p, timers s !! h = Some p → p = 10000%Q ∨ ∃ c, p = newInterval c.

Lemma periods_known_rearm period s :
  periods_known s → (period = 10000%Q ∨ ∃ c, period = newInterval c) →
  periods_known (fst (rearm period s)).
Proof.
  intros K Hp. unfold rearm.
  destruct (ref_truthy (intervalRef s)) as [h0|]; [| done].
  intros h p. timer_cases; [done | by eapply K].
Qed.

Lemma periods_known_step s e r :
  periods_known s → step s e = Some r → periods_known (fst r).
Proof.
  intros K. destruct e as [enabled| |h|k document|k]; simpl.
  - destruct (mounted s); [done |]. intros [= <-].
    destruct enabled; simpl; [| done].
    intros h p. timer_cases; [by left | by eapply K].
  - destruct (mounted s) as [[|]|]; [| by intros [= <-] | done].
    unfold cleanup.
    destruct (ref_truthy (intervalRef s)) as [h0|]; intros [= <-];
      [| done].
    intros h p. timer_cases. by eapply K.
  - destruct (timers s !! h); [| done]. by intros [= <-].
  - destruct (inflight s !! k) as [previousCount|]; [| done]. intros [= <-].
    unfold poll_resume.
    destruct (currentCount document =? previousCount).
    + destruct (3 <? _).
      * match goal with
        | |- context [rearm ?p ?s0] =>
            pose proof (periods_known_rearm p s0) as H0;
            destruct (rearm p s0) as [s1 a1]
        end.
        simpl in *. apply H0; [done | right; eauto].
      * done.
    + match goal with
      | |- context [rearm ?p ?s0] =>
          pose proof (periods_known_rearm p s0) as H0;
          destruct (rearm p s0) as [s1 a1]
      end.
      simpl in *. apply H0; [done | by left].
  - destruct (inflight s !! k); [| done]. by intros [= <-].
Qed.

Lemma reachable_periods_known s : reachable s → periods_known s.
Proof.
  induction 1 as [|s e s' acts _ IH Hstep]; [done |].
  apply (periods_known_step s e (s', acts) IH Hstep).
Qed.

(** X3.  Whatever has happened, every interval timer that is live, the stale
    ones an earlier effect left behind included, has a period between
    10000 ms and 30000 ms. *)
Theorem live_timers_within_bounds s h p :
  reachable s → timers s !! h = Some p →
  (10000 <= p)%Q ∧ (p <= 30000)%Q.
Proof.
  intros R Hp.
  destruct (reachable_periods_known s R h p Hp) as [->|[c ->]].
  - split; lra.
  - split; [apply newInterval_ge_fast | apply newInterval_le_max].
Qed.

Lemma live_timers_within_bounds_witness :
  reachable (after (three_quiet_cycles
                      ++ [Cleanup; FetchFulfilled 0 (document_with 0)])) ∧
  timers (after (three_quiet_cycles
                   ++ [Cleanup; FetchFulfilled 0 (document_with 0)])) !! 2
    = Some (newInterval 4) ∧
  (10000 <= newInterval 4)%Q ∧ (newInterval 4 <= 30000)%Q.
Proof.
  split; [apply reachable_after |]. split; [vm_compute; reflexivity |].
  apply (live_timers_within_bounds
           (after (three_quiet_cycles
                     ++ [Cleanup; FetchFulfilled 0 (document_with 0)])) 2).
  - apply reachable_after.
  - vm_compute. reflexivity.
Defined.

(** X4.  Once the counter has reached 5, a no-change completion arms the timer at
    the ceiling, whatever the period was: the counter outlives the effect,
    so this also happens on the first completion after a re-activation that
    had armed the timer at 10000 ms. *)
Theorem ceiling_from_sixth_quiet_poll s k document :
  reachable s →
  inflight s !! k = Some (currentCount document) →
  5 ≤ consecutiveNoChangeRef s →
  ∃ s' acts p,
    step s (FetchFulfilled k document) = Some (s', acts) ∧
    armed_period s' = Some p ∧ (p == 30000)%Q.
Proof.
  intros R E Hc. pose proof (reachable_inv s R) as I.
  destruct (poll_resume_same s k document I E) as (h & Hh & Hl & Hs).
  rewrite Hs. clear Hs. simpl.
  assert ((3 <? S (consecutiveNoChangeRef s)) = true) as ->
    by (apply Nat.ltb_lt; lia).
  eexists _, _, _. split_and!; [done | |].
  - unfold armed_period. simpl. by rewrite lookup_insert_eq.
  - apply newInterval_values. lia.
Qed.

Lemma ceiling_from_sixth_quiet_poll_witness :
  let evs := three_quiet_cycles
             ++ [FetchFulfilled 0 (document_with 0); TimerFires 2;
                 FetchFulfilled 0 (document_with 0); TimerFires 3] in
  reachable (after evs) ∧
  inflight (after evs) !! 0 = Some (currentCount (document_with 0)) ∧
  5 ≤ consecutiveNoChangeRef (after evs) ∧
  armed_period (after evs) = Some (newInterval 5) ∧
  ∃ s' acts p,
    step (after evs) (FetchFulfilled 0 (document_with 0)) = Some (s', acts) ∧
    armed_period s' = Some p ∧ (p == 30000)%Q.
Proof.
  intros evs. split; [apply reachable_after |].
  split; [vm_compute; reflexivity |]. split; [vm_compute; lia |].
  split; [vm_compute; reflexivity |].
  apply (ceiling_from_sixth_quiet_poll (after evs) 0 (document_with 0)).
  - apply reachable_after.
  - vm_compute. reflexivity.
  - vm_compute. lia.
Defined.

Lemma orderly_reachable s : orderly s → reachable s.
Proof.
  induction 1 as [|s e s' acts _ IH Hstep _]; [apply reachable_init |].
  by eapply reachable_step.
Qed.

(** In an orderly state the only live timer is the one [intervalRef]
    designates, and nothing is live or parked unless the effect is mounted
    and enabled. *)
Record tidy (s : state) : Prop := mkTidy {
  tidy_timers : ∀ h p, timers s !! h = Some p → intervalRef s = Some h;
  tidy_idle : mounted s ≠ Some true → timers s = ∅ ∧ inflight s = []
}.

Lemma tidy_rearm period s :
  tidy s → mounted s = Some true →
  tidy (fst (rearm period s)).
Proof.
  intros [T1 T2] Hm. unfold rearm.
  destruct (ref_truthy (intervalRef s)) as [h0|] eqn:E; [| done].
  apply ref_truthy_Some in E as [E _].
  split; simpl.
  - intros h p. timer_cases; [done |].
    match goal with H : timers s !! _ = Some _ |- _ => apply T1 in H end.
    congruence.
  - congruence.
Qed.

Lemma orderly_tidy s : orderly s → tidy s.
Proof.
  induction 1 as [|s e s' acts O T Hstep Hclean].
  { split; simpl; [intros h p; by rewrite lookup_empty | done]. }
  pose proof (reachable_inv s (orderly_reachable s O)) as I.
  destruct T as [T1 T2].
  destruct e as [enabled| |h|k document|k]; simpl in Hstep.
  - destruct (mounted s) eqn:Hm; [done |].
    destruct (T2 ltac:(congruence)) as [Ht Hi].
    injection Hstep as Hstep. apply (f_equal fst) in Hstep. simpl in Hstep.
    subst s'. destruct enabled; simpl.
    + split; simpl; [| congruence].
      intros h p. timer_cases; [done |].
      match goal with H : timers s !! _ = Some _ |- _ =>
        rewrite Ht, lookup_empty in H; discriminate H end.
    + split; simpl; [| done].
      intros h p. rewrite Ht, lookup_empty. discriminate.
  - specialize (Hclean eq_refl).
    destruct (mounted s) as [[|]|] eqn:Hm; [| | done].
    + unfold cleanup in Hstep.
      assert (delete_all : ∀ h0, ref_truthy (intervalRef s) = Some h0 →
                delete h0 (timers s) = ∅).
      { intros h0 [E _]%ref_truthy_Some. apply map_empty. intros h.
        rewrite lookup_delete. case_decide; [done |].
        destruct (timers s !! h) as [p|] eqn:Eh; [| done].
        apply T1 in Eh. congruence. }
      assert (no_ref : ref_truthy (intervalRef s) = None → timers s = ∅).
      { intros E. apply map_empty. intros h.
        destruct (timers s !! h) as [p|] eqn:Eh; [| done].
        pose proof (T1 _ _ Eh) as Er.
        rewrite (ref_truthy_of_inv s h I Er) in E. discriminate E. }
      destruct (ref_truthy (intervalRef s)) as [h0|] eqn:E;
        injection Hstep as <- _; split; simpl.
      * intros h p. rewrite (delete_all h0 eq_refl), lookup_empty.
        discriminate.
      * intros _. by rewrite (delete_all h0 eq_refl).
      * intros h p. rewrite (no_ref eq_refl), lookup_empty. discriminate.
      * intros _. by rewrite (no_ref eq_refl).
    + destruct (T2 ltac:(congruence)) as [Ht Hi].
      injection Hstep as <- _. split; simpl; [| done].
      intros h p. rewrite Ht, lookup_empty. discriminate.
  - destruct (timers s !! h) as [p|] eqn:Eh; [| done].
    injection Hstep as <- _.
    assert (Hm : mounted s = Some true).
    { destruct (mounted s) as [[|]|] eqn:Hm; [done | |];
        destruct (T2 ltac:(congruence)) as [Ht _];
        rewrite Ht, lookup_empty in Eh; discriminate Eh. }
    split; simpl; [done | congruence].
  - destruct (inflight s !! k) as [previousCount|] eqn:Ek; [| done].
    assert (Hm : mounted s = Some true).
    { destruct (mounted s) as [[|]|] eqn:Hm; [done | |];
        destruct (T2 ltac:(congruence)) as [_ Hi];
        rewrite Hi in Ek; discriminate Ek. }
    destruct (ref_truthy_parked s k previousCount I Ek) as (h & Hh & Ht & Hl).
    injection Hstep as Hstep. apply (f_equal fst) in Hstep. simpl in Hstep.
    subst s'. unfold poll_resume.
    set (s0 := set_inflight (delete k (inflight s)) s).
    assert (T0 : tidy s0) by (split; simpl; [done | congruence]).
    destruct (currentCount document =? previousCount).
    + set (s1 := set_consecutiveNoChange (S (consecutiveNoChangeRef s0)) s0).
      assert (T1' : tidy s1) by (split; simpl; [done | congruence]).
      destruct (3 <? consecutiveNoChangeRef s1).
      * pose proof (tidy_rearm (newInterval (consecutiveNoChangeRef s1)) s1
                      T1' Hm) as R.
        destruct (rearm _ s1) as [s2 a2]. simpl in *.
        destruct R as [R1 R2]. split; simpl; [done | done].
      * split; simpl; [done | congruence].
    + set (s1 := set_consecutiveNoChange 0 s0).
      assert (T1' : tidy s1) by (split; simpl; [done | congruence]).
      pose proof (tidy_rearm 10000%Q s1 T1' Hm) as R.
      destruct (rearm _ s1) as [s2 a2]. simpl in *.
      destruct R as [R1 R2]. split; simpl; [done | done].
  - destruct (inflight s !! k) as [previousCount|] eqn:Ek; [| done].
    assert (Hm : mounted s = Some true).
    { destruct (mounted s) as [[|]|] eqn:Hm; [done | |];
        destruct (T2 ltac:(congruence)) as [_ Hi];
        rewrite Hi in Ek; discriminate Ek. }
    injection Hstep as <- _. split; simpl; [done | congruence].
Qed.

Lemma idle_until_enabled s es s' acts :
  orderly s → mounted s ≠ Some true →
  Forall (λ e, e ≠ RunEffect true) es →
  run s es = Some (s', acts) →
  acts = [] ∧ timers s' = ∅ ∧ inflight s' = [].
Proof.
  intros O Hm Hes. revert s s' acts O Hm.
  induction Hes as [|e es He _ IH]; intros s s' acts O Hm; simpl.
  - intros [= <- <-]. split; [done |]. by apply (tidy_idle s (orderly_tidy s O)).
  - destruct (step s e) as [[s1 a1]|] eqn:E1; [| done].
    destruct (run s1 es) as [[s2 a2]|] eqn:E2; [| done].
    intros [= <- <-].
    destruct (tidy_idle s (orderly_tidy s O) Hm) as [Ht Hi].
    assert (a1 = [] ∧ mounted s1 ≠ Some true ∧ (e = Cleanup → inflight s = []))
      as (-> & Hm1 & Hc).
    { destruct e as [enabled| |h|k document|k]; simpl in E1.
      - destruct (mounted s); [done |]. destruct enabled; [done |].
        injection E1 as <- <-. done.
      - destruct (mounted s) as [[|]|]; [done | | done].
        injection E1 as <- <-. done.
      - rewrite Ht, lookup_empty in E1. done.
      - rewrite Hi in E1. done.
      - rewrite Hi in E1. done. }
    apply (IH s1 s2 a2); [by eapply orderly_step | done | done].
Qed.

(** X1.  When the cleanup runs while no invocation of [poll] is parked, and
    never did otherwise, it leaves no timer behind, and until the effect
    runs enabled again the hook does nothing at all: no fetch, no timer. *)
Theorem orderly_teardown s s1 a1 es s2 acts :
  orderly s → inflight s = [] →
  step s Cleanup = Some (s1, a1) →
  Forall (λ e, e ≠ RunEffect true) es →
  run s1 es = Some (s2, acts) →
  timers s1 = ∅ ∧ acts = [] ∧ timers s2 = ∅ ∧ inflight s2 = [].
Proof.
  intros O Hi Hstep Hes Hrun.
  assert (O1 : orderly s1) by (by eapply orderly_step).
  assert (Hm1 : mounted s1 ≠ Some true).
  { simpl in Hstep. destruct (mounted s) as [[|]|]; [| | done].
    - destruct (cleanup s) as [s0 a0]. by injection Hstep as <- _.
    - by injection Hstep as <- _. }
  split; [by apply (tidy_idle s1 (orderly_tidy s1 O1)) |].
  by apply (idle_until_enabled s1 es s2 acts).
Qed.

Lemma orderly_teardown_witness :
  let s := after [RunEffect true; FetchFulfilled 0 (document_with 0);
                  TimerFires 1; FetchFulfilled 0 (document_with 0)] in
  orderly s ∧ inflight s = [] ∧
  ∃ s1 s2,
    step s Cleanup = Some (s1, [ClearInterval 1]) ∧
    run s1 [RunEffect false; Cleanup] = Some (s2, []) ∧
    timers s1 = ∅ ∧ timers s2 = ∅.
Proof.
  intros s.
  assert (O : orderly s).
  { eapply (orderly_step
              (after [RunEffect true; FetchFulfilled 0 (document_with 0);
                      TimerFires 1])
              (FetchFulfilled 0 (document_with 0)));
      [| vm_compute; reflexivity | discriminate].
    eapply (orderly_step
              (after [RunEffect true; FetchFulfilled 0 (document_with 0)])
              (TimerFires 1));
      [| vm_compute; reflexivity | discriminate].
    eapply (orderly_step (after [RunEffect true])
              (FetchFulfilled 0 (document_with 0)));
      [| vm_compute; reflexivity | discriminate].
    eapply (orderly_step init (RunEffect true));
      [apply orderly_init | vm_compute; reflexivity | discriminate]. }
  split; [exact O |]. split; [reflexivity |].
  destruct (step s Cleanup) as [[s1 a1]|] eqn:E1;
    [| vm_compute in E1; discriminate E1].
  destruct (run s1 [RunEffect false; Cleanup]) as [[s2 a2]|] eqn:E2.
  - destruct (orderly_teardown s s1 a1 [RunEffect false; Cleanup] s2 a2
                O eq_refl E1) as (H1 & -> & H2 & _).
    + repeat constructor; discriminate.
    + exact E2.
    + exists s1, s2. split_and!; try done.
      vm_compute in E1. by injection E1 as _ <-.
  - exfalso. vm_compute in E1. injection E1 as <- _.
    vm_compute in E2. discriminate E2.
Defined.

(** ** The comparison with the prior invocation's signal *)














End PollerFacts.

Module TraceListFacts.
Import Js TraceList.

Section Render.
Variable now : Z.
Variable toLocaleDateString : Z → string.

Lemma trace_entry_untagged selectedTraceId trace :
  querySelectorAll "data-trace-id"
    (trace_entry now toLocaleDateString selectedTraceId trace) = [].
Proof. reflexivity. Qed.

Lemma entries_untagged traces selectedTraceId :
  flat_map (querySelectorAll "data-trace-id")
    (entries now toLocaleDateString traces selectedTraceId) = [].
Proof.
  unfold entries. induction traces as [|t traces IH]; [done |].
  cbn [map flat_map]. rewrite IH, trace_entry_untagged. done.
Qed.

Lemma TraceList_untagged traces selectedTraceId :
  querySelectorAll "data-trace-id"
    (TraceList now toLocaleDateString traces selectedTraceId) = [].
Proof.
  unfold TraceList. destruct (length traces =? 0).
  - reflexivity.
  - cbn -[entries]. rewrite entries_untagged. done.
Qed.

(** Wherever the list is mounted in the page, it adds nothing to what
    the poller counts. *)
Lemma TraceList_contributes_nothing tag attrs before behind traces sel :
  Poller.currentCount
    (VElem tag attrs
       (before ++ [TraceList now toLocaleDateString traces sel] ++ behind))
  = Poller.currentCount (VElem tag attrs (before ++ behind)).
Proof.
  assert (length (querySelectorAll "data-trace-id"
            (VElem tag attrs
               (before ++ [TraceList now toLocaleDateString traces sel]
                       ++ behind)))
          = length (querySelectorAll "data-trace-id"
                      (VElem tag attrs (before ++ behind)))) as E.
  { cbn [querySelectorAll]. rewrite !flat_map_app. cbn [flat_map].
    rewrite TraceList_untagged, !length_app.
    destruct (has_attr "data-trace-id" attrs); simpl; lia. }
  unfold Poller.currentCount. by rewrite E.
Qed.

(** C8.  The list renders one entry per trace, but no entry carries a
    [data-trace-id] attribute, so the count the poller measures on the
    rendered list is 0 whatever the number of entries. *)
Theorem rendered_entries_not_counted traces selectedTraceId :
  length (entries now toLocaleDateString traces selectedTraceId)
    = length traces ∧
  Poller.currentCount
    (TraceList now toLocaleDateString traces selectedTraceId) = 0.
Proof.
  split.
  - unfold entries. by rewrite length_map.
  - unfold Poller.currentCount. by rewrite TraceList_untagged.
Qed.

End Render.

(** One trace on display, none counted. *)
Example one_trace_rendered_none_counted :
  length (entries 0 (λ _, "1/1/1970") [sample_trace] None) = 1 ∧
  Poller.currentCount (TraceList 0 (λ _, "1/1/1970") [sample_trace] None) = 0.
Proof. split; reflexivity. Qed.

Ltac div_lia := Z.to_euclidean_division_equations; lia.

(** X5.  The age shown for a trace, by how long ago it was created: under a
    minute (or in the future) "Just now"; then whole minutes from 1 to 59,
    whole hours from 1 to 23, whole days from 1 to 6; from seven days on the
    date itself.  A trace without a creation time shows "Unknown". *)
Theorem formatDate_buckets now toLocaleDateString date :
  let age := (now - date)%Z in
  let shown := formatDate now toLocaleDateString (Some date) in
  ((age < 60000)%Z → shown = "Just now") ∧
  ((60000 ≤ age < 3600000)%Z →
   shown = pretty (age / 60000)%Z +:+ "m ago" ∧ (1 ≤ age / 60000 ≤ 59)%Z) ∧
  ((3600000 ≤ age < 86400000)%Z →
   shown = pretty (age / 3600000)%Z +:+ "h ago" ∧
   (1 ≤ age / 3600000 ≤ 23)%Z) ∧
  ((86400000 ≤ age < 604800000)%Z →
   shown = pretty (age / 86400000)%Z +:+ "d ago" ∧
   (1 ≤ age / 86400000 ≤ 6)%Z) ∧
  ((604800000 ≤ age)%Z → shown = toLocaleDateString date) ∧
  formatDate now toLocaleDateString None = "Unknown".
Proof.
  intros age shown. unfold shown, formatDate. fold age. clearbody age.
  clear shown.
  split_and!; [| | | | | done]; intros H.
  - assert ((age / 60000 <? 1)%Z = true) as -> by (apply Z.ltb_lt; div_lia).
    done.
  - assert ((age / 60000 <? 1)%Z = false) as -> by (apply Z.ltb_ge; div_lia).
    assert ((age / 60000 <? 60)%Z = true) as -> by (apply Z.ltb_lt; div_lia).
    split; [done | div_lia].
  - assert ((age / 60000 <? 1)%Z = false) as -> by (apply Z.ltb_ge; div_lia).
    assert ((age / 60000 <? 60)%Z = false) as -> by (apply Z.ltb_ge; div_lia).
    assert ((age / 3600000 <? 24)%Z = true) as -> by (apply Z.ltb_lt; div_lia).
    split; [done | div_lia].
  - assert ((age / 60000 <? 1)%Z = false) as -> by (apply Z.ltb_ge; div_lia).
    assert ((age / 60000 <? 60)%Z = false) as -> by (apply Z.ltb_ge; div_lia).
    assert ((age / 3600000 <? 24)%Z = false) as -> by (apply Z.ltb_ge; div_lia).
    assert ((age / 86400000 <? 7)%Z = true) as -> by (apply Z.ltb_lt; div_lia).
    split; [done | div_lia].
  - assert ((age / 60000 <? 1)%Z = false) as -> by (apply Z.ltb_ge; div_lia).
    assert ((age / 60000 <? 60)%Z = false) as -> by (apply Z.ltb_ge; div_lia).
    assert ((age / 3600000 <? 24)%Z = false) as -> by (apply Z.ltb_ge; div_lia).
    assert ((age / 86400000 <? 7)%Z = false) as -> by (apply Z.ltb_ge; div_lia).
    done.
Qed.

Lemma formatDate_buckets_witness :
  (3600000 ≤ 7199999 - 0 < 86400000)%Z ∧
  formatDate 7199999 (λ _, "1/1/1970") (Some 0%Z) = "1h ago" ∧
  (60000 ≤ 3599999 - 0 < 3600000)%Z ∧
  formatDate 3599999 (λ _, "1/1/1970") (Some 0%Z) = "59m ago" ∧
  (604800000 ≤ 604800000 - 0)%Z ∧
  formatDate 604800000 (λ _, "1/1/1970") (Some 0%Z) = "1/1/1970".
Proof.
  destruct (formatDate_buckets 7199999 (λ _, "1/1/1970") 0)
    as (_ & _ & Hh & _).
  destruct (formatDate_buckets 3599999 (λ _, "1/1/1970") 0)
    as (_ & Hm & _).
  destruct (formatDate_buckets 604800000 (λ _, "1/1/1970") 0)
    as (_ & _ & _ & _ & Hd & _).
  split; [lia |]. split; [rewrite (proj1 (Hh ltac:(lia))); reflexivity |].
  split; [lia |]. split; [rewrite (proj1 (Hm ltac:(lia))); reflexivity |].
  split; [lia |]. rewrite (Hd ltac:(lia)). reflexivity.
Defined.

End TraceListFacts.

Module TraceViewerFacts.
Import Js TraceViewer.

Lemma get_prop_object v k : nullish v = false → get_prop v k = Normal (field v k).
Proof. unfold get_prop. by intros ->. Qed.

(** The loop, started at a positive index on arrays already filled. *)
Lemma forEach_step_from sel items :
  objects items →
  ∀ index ns es, 0 < index →
    forEach_step sel index items ns es =
    Normal (ns ++ imap (λ i, node_at sel (index + i)) items,
            es ++ imap (λ i, edge_at (index + i)) items).
Proof.
  unfold objects.
  induction 1 as [|step rest Hstep _ IH]; intros index ns es Hpos.
  - simpl. by rewrite !app_nil_r.
  - cbn [forEach_step]. rewrite (get_prop_object _ _ Hstep).
    assert ((0 <? index) = true) as -> by (apply Nat.ltb_lt; lia).
    rewrite IH by lia. cbn [imap]. rewrite Nat.add_0_r.
    rewrite (imap_ext ((λ i, node_at sel (index + i)) ∘ S)
               (λ i, node_at sel (S index + i)) rest)
      by (intros; simpl; f_equal; lia).
    rewrite (imap_ext ((λ i, edge_at (index + i)) ∘ S)
               (λ i, edge_at (S index + i)) rest)
      by (intros; simpl; f_equal; lia).
    rewrite <- !app_assoc. done.
Qed.

Lemma build_flow_objects sel items :
  objects items →
  build_flow sel (JArr items) = Normal (all_nodes sel items, all_edges items).
Proof.
  intros H. unfold build_flow, all_nodes, all_edges.
  destruct H as [|step rest Hstep Hrest]; [done |].
  cbn [forEach_step]. rewrite (get_prop_object _ _ Hstep).
  cbn [Nat.ltb Nat.leb]. rewrite (forEach_step_from sel rest Hrest) by lia.
  cbn [imap app tail]. do 2 f_equal.
Qed.

(** [updateFlow] shows what [build_flow] built, or throws and shows what
    was shown before. *)
Lemma updateFlow_unfold sel steps w :
  updateFlow sel steps w =
  match build_flow sel steps with
  | Normal (ns, es) => (Normal (), showing ns es w)
  | Throw e => (Throw e, w)
  end.
Proof.
  unfold updateFlow, mbind, M_bind, bind, lift.
  destruct (build_flow sel steps) as [[ns es]|e]; done.
Qed.

Lemma updateFlow_objects sel items w :
  objects items →
  updateFlow sel (JArr items) w =
  (Normal (), showing (all_nodes sel items) (all_edges items) w).
Proof.
  intros H. by rewrite updateFlow_unfold, build_flow_objects.
Qed.

Lemma step_id_inj (i j : nat) :
  "step-" +:+ pretty i = "step-" +:+ pretty j → i = j.
Proof. intros H. apply (inj _) in H. by apply (inj pretty) in H. Qed.

Lemma objects_scenario : objects scenario.
Proof. repeat constructor. Qed.

Lemma all_edges_lookup items i step :
  1 ≤ i → items !! i = Some step →
  all_edges items !! (i - 1) = Some (edge_at i step).
Proof.
  intros Hi Hstep. unfold all_edges. rewrite list_lookup_imap.
  destruct items as [|first rest]; [done |].
  destruct i as [|i]; [lia |]. cbn [tail]. simpl in Hstep.
  replace (S i - 1) with i by lia. by rewrite Hstep.
Qed.

Lemma all_edges_elem items e :
  e ∈ all_edges items →
  ∃ i step, 1 ≤ i ∧ items !! i = Some step ∧ e = edge_at i step.
Proof.
  unfold all_edges. intros (i & He)%list_elem_of_lookup.
  rewrite list_lookup_imap in He.
  destruct (tail items !! i) as [step|] eqn:E; [| done].
  injection He as <-. exists (S i), step. split_and!; [lia | | done].
  destruct items; [done |]. exact E.
Qed.

(** C3.  On an array of [N] step objects the builder ends normally and shows
    [N] nodes, the [i]-th with identifier [step-i] at [x = 250],
    [y = i * 100 + 50], and [N - 1] edges (none when [N] is 0), edge [i]
    being [edge-i] from [step-(i-1)] to [step-i] for [1 <= i < N]; no edge
    leads to [step-0]; on the empty array both arrays are empty. *)
Theorem flow_is_a_chain sel items w :
  objects items →
  ∃ ns es,
    updateFlow sel (JArr items) w = (Normal (), showing ns es w) ∧
    length ns = length items ∧
    (∀ i, i < length items →
       ∃ n, ns !! i = Some n ∧
            node_id n = "step-" +:+ pretty i ∧
            node_position n = {| x := 250; y := i * 100 + 50 |}) ∧
    length es = length items - 1 ∧
    (∀ i, 1 ≤ i < length items →
       ∃ e, es !! (i - 1) = Some e ∧
            edge_id e = "edge-" +:+ pretty i ∧
            source e = "step-" +:+ pretty (i - 1) ∧
            target e = "step-" +:+ pretty i) ∧
    (∀ e, e ∈ es → target e ≠ "step-0") ∧
    (items = [] → ns = [] ∧ es = []).
Proof.
  intros Hobj. exists (all_nodes sel items), (all_edges items).
  split_and!.
  - by apply updateFlow_objects.
  - unfold all_nodes. by rewrite length_imap.
  - intros i Hi. apply lookup_lt_is_Some_2 in Hi as [step Hstep].
    exists (node_at sel i step). split_and!; try done.
    unfold all_nodes. by rewrite list_lookup_imap, Hstep.
  - unfold all_edges. rewrite length_imap. destruct items; simpl; lia.
  - intros i [Hi1 Hi2]. apply lookup_lt_is_Some_2 in Hi2 as [step Hstep].
    exists (edge_at i step). split_and!; try done.
    by apply all_edges_lookup.
  - intros e (i & step & Hi & _ & ->)%all_edges_elem. simpl.
    change "step-0" with ("step-" +:+ pretty 0).
    intros H%step_id_inj. lia.
  - by intros ->.
Qed.

Lemma flow_is_a_chain_witness :
  objects scenario ∧
  ∃ ns es,
    updateFlow (Some 1) (JArr scenario) initial
      = (Normal (), showing ns es initial) ∧
    length ns = 3 ∧ length es = 2 ∧
    ∃ e, es !! 1 = Some e ∧ edge_id e = "edge-2" ∧
         source e = "step-1" ∧ target e = "step-2".
Proof.
  split; [apply objects_scenario |].
  destruct (flow_is_a_chain (Some 1) scenario initial objects_scenario)
    as (ns & es & Hrun & Hn & _ & He & Hchain & _).
  exists ns, es. split_and!; [exact Hrun | exact Hn | exact He |].
  destruct (Hchain 2) as (e & Hl & Hid & Hsrc & Htgt); [simpl; lia |].
  exists e. split_and!; assumption.
Defined.

Lemma step_color_cases step :
  step_color step = "#ef4444" ∨ step_color step = "#f59e0b" ∨
  step_color step = "#3b82f6" ∨ step_color step = "#10b981".
Proof.
  unfold step_color, nodeColor_of.
  repeat destruct (strict_eq_str _ _); auto.
Qed.

Lemma strict_eq_str_true v lit : strict_eq_str v lit = true ↔ v = JStr lit.
Proof.
  destruct v; simpl; try (split; [discriminate | discriminate]).
  rewrite String.eqb_eq. split; [by intros -> | by intros [= ->]].
Qed.

Lemma strict_eq_str_false v lit : v ≠ JStr lit → strict_eq_str v lit = false.
Proof.
  intros H. destruct (strict_eq_str v lit) eqn:E; [| done].
  by apply strict_eq_str_true in E.
Qed.

(** The status the colour is chosen from is the raw status unless that is
    falsy. *)
Lemma status_of_cases raw :
  status_of raw = raw ∨ (truthy raw = false ∧ status_of raw = JStr "success").
Proof. unfold status_of, js_or. destruct (truthy raw); auto. Qed.

Lemma step_color_other step :
  field step "status" ≠ JStr "error" →
  field step "status" ≠ JStr "warning" →
  field step "status" ≠ JStr "partial" →
  step_color step = "#10b981".
Proof.
  intros H1 H2 H3. unfold step_color.
  destruct (status_of_cases (field step "status")) as [->|[_ ->]]; [| done].
  unfold nodeColor_of. by rewrite !strict_eq_str_false.
Qed.

(** C4.  The colour of the node built for a step object is chosen by
    comparing the step's status with [===]: exactly the strings [error],
    [warning] and [partial] give red, amber and blue, and every other
    status, a missing one included, gives green.  The node's background and
    its border when it is not selected are made from that colour. *)
Theorem status_color_exact sel items w i step :
  objects items → items !! i = Some step →
  ∃ n,
    nodes (ui (snd (updateFlow sel (JArr items) w))) !! i = Some n ∧
    background (node_style_of n) =
      "linear-gradient(135deg, " +:+ step_color step +:+ "15 0%, " +:+
      step_color step +:+ "08 100%)" ∧
    (sel ≠ Some i →
     border (node_style_of n) = "1.5px solid " +:+ step_color step +:+ "40") ∧
    (field step "status" = JStr "error" → step_color step = "#ef4444") ∧
    (field step "status" = JStr "warning" → step_color step = "#f59e0b") ∧
    (field step "status" = JStr "partial" → step_color step = "#3b82f6") ∧
    (field step "status" ≠ JStr "error" →
     field step "status" ≠ JStr "warning" →
     field step "status" ≠ JStr "partial" →
     step_color step = "#10b981").
Proof.
  intros Hobj Hstep. exists (node_at sel i step). split_and!.
  - rewrite updateFlow_objects by done. simpl. unfold all_nodes.
    by rewrite list_lookup_imap, Hstep.
  - done.
  - intros Hsel. simpl. by rewrite bool_decide_eq_false_2.
  - unfold step_color. by intros ->.
  - unfold step_color. by intros ->.
  - unfold step_color. by intros ->.
  - apply step_color_other.
Qed.

Lemma status_color_exact_witness :
  objects [step_obj "A" "Error"; step_without_status "B"] ∧
  [step_obj "A" "Error"; step_without_status "B"] !! 0
    = Some (step_obj "A" "Error") ∧
  ∃ n,
    nodes (ui (snd (updateFlow None
                      (JArr [step_obj "A" "Error"; step_without_status "B"])
                      initial))) !! 0 = Some n ∧
    background (node_style_of n)
      = "linear-gradient(135deg, #10b98115 0%, #10b98108 100%)" ∧
    border (node_style_of n) = "1.5px solid #10b98140".
Proof.
  split; [repeat constructor |]. split; [reflexivity |].
  destruct (status_color_exact None
              [step_obj "A" "Error"; step_without_status "B"] initial 0
              (step_obj "A" "Error"))
    as (n & Hn & Hbg & Hborder & _ & _ & _ & Hgreen);
    [repeat constructor | reflexivity |].
  exists n. split; [exact Hn |].
  rewrite Hbg, Hborder by discriminate.
  rewrite Hgreen by discriminate. split; reflexivity.
Defined.

Lemma color_suffix_inj a b :
  step_color a +:+ "60" = step_color b +:+ "60" → step_color a = step_color b.
Proof.
  destruct (step_color_cases a) as [-> | [-> | [-> | ->]]];
    destruct (step_color_cases b) as [-> | [-> | [-> | ->]]];
    intros H; try reflexivity; cbv in H; discriminate H.
Qed.

(** C5.  Edge [edge-i] takes its stroke and the colour of its arrow from
    the colour of step [i], the step it leads to; whenever step [i - 1] has
    another colour, the edge does not have that one. *)
Theorem edge_colored_by_target sel items w i step :
  objects items → 1 ≤ i → items !! i = Some step →
  ∃ e,
    edges (ui (snd (updateFlow sel (JArr items) w))) !! (i - 1) = Some e ∧
    edge_id e = "edge-" +:+ pretty i ∧
    target e = "step-" +:+ pretty i ∧
    stroke e = step_color step +:+ "60" ∧
    marker_color (markerEnd e) = step_color step +:+ "60" ∧
    (∀ prev, items !! (i - 1) = Some prev →
             step_color prev ≠ step_color step →
             stroke e ≠ step_color prev +:+ "60" ∧
             marker_color (markerEnd e) ≠ step_color prev +:+ "60").
Proof.
  intros Hobj Hi Hstep. exists (edge_at i step). split_and!; try done.
  - rewrite updateFlow_objects by done. simpl. by apply all_edges_lookup.
  - intros prev _ Hne. simpl.
    split; intros H%color_suffix_inj; by apply Hne.
Qed.

Lemma edge_colored_by_target_witness :
  objects scenario ∧ 1 ≤ 1 ∧ scenario !! 1 = Some (step_obj "B" "error") ∧
  ∃ e,
    edges (ui (snd (updateFlow (Some 1) (JArr scenario) initial))) !! 0
      = Some e ∧
    edge_id e = "edge-1" ∧
    stroke e = "#ef444460" ∧
    marker_color (markerEnd e) = "#ef444460" ∧
    stroke e ≠ "#10b98160".
Proof.
  split; [apply objects_scenario |]. split; [lia |]. split; [reflexivity |].
  destruct (edge_colored_by_target (Some 1) scenario initial 1
              (step_obj "B" "error") objects_scenario (le_n 1) eq_refl)
    as (e & He & Hid & _ & Hstroke & Hmarker & Hprev).
  exists e. split_and!.
  - exact He.
  - exact Hid.
  - exact Hstroke.
  - exact Hmarker.
  - apply (Hprev (step_obj "A" "success") eq_refl). discriminate.
Defined.

(** The selection only shows in the two highlight fields of a node. *)
Lemma without_highlight_make_node sel sel' index step status nodeColor :
  without_highlight (make_node sel index step status nodeColor)
  = without_highlight (make_node sel' index step status nodeColor).
Proof. reflexivity. Qed.

Lemma forEach_step_selection sel sel' items :
  ∀ index ns ns' es,
    without_highlight <$> ns = without_highlight <$> ns' →
    match forEach_step sel index items ns es,
          forEach_step sel' index items ns' es with
    | Normal (n, e), Normal (n', e') =>
        without_highlight <$> n = without_highlight <$> n' ∧ e = e'
    | Throw a, Throw b => a = b
    | _, _ => False
    end.
Proof.
  induction items as [|step rest IH]; intros index ns ns' es Hns.
  - simpl. done.
  - cbn [forEach_step]. destruct (get_prop step "status") as [raw|err]; [| done].
    apply IH. rewrite !fmap_app. cbn [fmap list_fmap].
    by rewrite Hns, (without_highlight_make_node sel sel').
Qed.

Lemma build_flow_selection sel sel' steps :
  match build_flow sel steps, build_flow sel' steps with
  | Normal (n, e), Normal (n', e') =>
      without_highlight <$> n = without_highlight <$> n' ∧ e = e'
  | Throw a, Throw b => a = b
  | _, _ => False
  end.
Proof.
  destruct steps; try done. simpl. by apply forEach_step_selection.
Qed.

Lemma node_id_without_highlight (ns : list node) :
  node_id <$> ns = node_id <$> (without_highlight <$> ns).
Proof. rewrite <- list_fmap_compose. done. Qed.

Lemma node_position_without_highlight (ns : list node) :
  node_position <$> ns = node_position <$> (without_highlight <$> ns).
Proof. rewrite <- list_fmap_compose. done. Qed.

(** C9.  What the builder shows depends on the steps and the selection
    only, not on what was shown before: two calls with the same steps and
    the same selection show the same nodes and edges.  Two calls with the
    same steps and different selections end the same way, show the same
    edges, and show nodes that agree in everything (identifier, order,
    position, label, the other style fields) but the border and the
    shadow. *)
Theorem flow_depends_on_selection_only_in_highlight steps sel sel' w w' :
  fst (updateFlow sel steps w) = fst (updateFlow sel' steps w') ∧
  (fst (updateFlow sel steps w) = Normal () →
   let v := ui (snd (updateFlow sel steps w)) in
   let v' := ui (snd (updateFlow sel' steps w')) in
   edges v = edges v' ∧
   node_id <$> nodes v = node_id <$> nodes v' ∧
   node_position <$> nodes v = node_position <$> nodes v' ∧
   without_highlight <$> nodes v = without_highlight <$> nodes v' ∧
   (sel = sel' → nodes v = nodes v')).
Proof.
  rewrite !updateFlow_unfold.
  pose proof (build_flow_selection sel sel' steps) as H.
  destruct (build_flow sel steps) as [[ns es]|e] eqn:E;
    destruct (build_flow sel' steps) as [[ns' es']|e'] eqn:E';
    try done; simpl.
  - destruct H as [Hn ->]. split; [done |]. intros _. split_and!.
    + done.
    + by rewrite (node_id_without_highlight ns), Hn,
        <- node_id_without_highlight.
    + by rewrite (node_position_without_highlight ns), Hn,
        <- node_position_without_highlight.
    + done.
    + intros ->. rewrite E in E'. by simplify_eq.
  - subst. split; [done |]. discriminate.
Qed.

Lemma flow_depends_on_selection_only_in_highlight_witness :
  fst (updateFlow (Some 1) (JArr scenario) initial) = Normal () ∧
  edges (ui (snd (updateFlow (Some 1) (JArr scenario) initial)))
    = edges (ui (snd (updateFlow None (JArr scenario) initial))) ∧
  node_id <$> nodes (ui (snd (updateFlow (Some 1) (JArr scenario) initial)))
    = ["step-0"; "step-1"; "step-2"] ∧
  nodes (ui (snd (updateFlow (Some 1) (JArr scenario) initial)))
    ≠ nodes (ui (snd (updateFlow None (JArr scenario) initial))).
Proof.
  destruct (flow_depends_on_selection_only_in_highlight
              (JArr scenario) (Some 1) None initial initial) as [_ H].
  destruct (H eq_refl) as (He & Hid & _ & _ & _).
  split_and!.
  - reflexivity.
  - exact He.
  - reflexivity.
  - discriminate.
Defined.

(** C10.  [fetchTrace] never throws.  When the request or the parsing of
    its body fails, the component's state (trace, selection, nodes, edges)
    is what it was, and the error went to the console. *)
Theorem fetchTrace_failure_contained env network traceId sel w :
  let url := apiUrl env +:+ "/api/traces/" +:+ traceId in
  fst (fetchTrace env network traceId sel w) = Normal () ∧
  ((∀ data, network url ≠ JsonResolves data) →
   ∃ e, snd (fetchTrace env network traceId sel w)
        = mkWorld (ui w) (console w ++ [("Failed to fetch trace:", e)])) ∧
  (ui (snd (fetchTrace env network traceId sel w)) ≠ ui w →
   ∃ data, network url = JsonResolves data).
Proof.
  intros url. unfold fetchTrace, try_catch. fold url.
  unfold mbind at 1. unfold M_bind, bind, await_json.
  destruct (network url) as [e|e|data]; simpl.
  - split_and!; [done | by exists e | done].
  - split_and!; [done | by exists e | done].
  - split_and!.
    + match goal with
      | |- context [match ?body with _ => _ end] =>
          destruct body as [[[]|e] w1]; done
      end.
    + intros Hfail. by destruct (Hfail data).
    + eauto.
Qed.

Lemma fetchTrace_failure_contained_witness :
  (∀ data,
     (λ _, JsonRejects SyntaxError)
       (apiUrl None +:+ "/api/traces/" +:+ "t-1") ≠ JsonResolves data) ∧
  trace (ui scenario_loaded) = scenario_trace ∧
  length (nodes (ui scenario_loaded)) = 3 ∧
  fst (fetchTrace None (λ _, JsonRejects SyntaxError) "t-1" None
         scenario_loaded) = Normal () ∧
  ui (snd (fetchTrace None (λ _, JsonRejects SyntaxError) "t-1" None
             scenario_loaded)) = ui scenario_loaded.
Proof.
  split; [discriminate |]. split; [reflexivity |]. split; [reflexivity |].
  destruct (fetchTrace_failure_contained None (λ _, JsonRejects SyntaxError)
              "t-1" None scenario_loaded)
    as (Hok & Hfail & _).
  split; [exact Hok |].
  destruct Hfail as [e He]; [discriminate |]. by rewrite He.
Defined.

(** A body that parses to [null] is not a failed parse: the trace shown
    becomes [null], and the [TypeError] of [data.steps] is caught before
    the graph is touched. *)
Example fetchTrace_null_body :
  fetchTrace None (λ _, JsonResolves JNull) "t-1" None scenario_loaded
  = (Normal (),
     mkWorld (mkViewer JNull None (nodes (ui scenario_loaded))
                (edges (ui scenario_loaded)))
             [("Failed to fetch trace:", TypeError)]).
Proof. reflexivity. Qed.

(** The builder throws on an array that holds [null]; the hypothesis of
    the chain theorem cannot be dropped. *)
Example updateFlow_null_step :
  updateFlow None (JArr [step_obj "A" "success"; JNull]) initial
  = (Throw TypeError, initial).
Proof. reflexivity. Qed.

(** Showing the same steps with the same selection again changes nothing. *)
Lemma updateFlow_idempotent sel steps w :
  updateFlow sel steps (snd (updateFlow sel steps w)) = updateFlow sel steps w.
Proof.
  rewrite !updateFlow_unfold.
  destruct (build_flow sel steps) as [[ns es]|e]; done.
Qed.


(** The statuses of the colour table, one by one. *)
Example color_table :
  step_color (step_obj "s" "error") = "#ef4444" ∧
  step_color (step_obj "s" "warning") = "#f59e0b" ∧
  step_color (step_obj "s" "partial") = "#3b82f6" ∧
  step_color (step_obj "s" "success") = "#10b981" ∧
  step_color (step_without_status "s") = "#10b981" ∧
  step_color (step_obj "s" "unknown-garbage") = "#10b981" ∧
  step_color (step_obj "s" "ERROR") = "#10b981" ∧
  step_color (step_obj "s" "") = "#10b981".
Proof. repeat split. Qed.

(** Steps A (success), B (error), C (no status) with step 1 selected. *)
Example scenario_flow :
  let v := ui (snd (updateFlow (Some 1) (JArr scenario) initial)) in
  node_id <$> nodes v = ["step-0"; "step-1"; "step-2"] ∧
  (border ∘ node_style_of) <$> nodes v
    = ["1.5px solid #10b98140"; "1.5px solid #818cf8";
       "1.5px solid #10b98140"] ∧
  (background ∘ node_style_of) <$> nodes v
    = ["linear-gradient(135deg, #10b98115 0%, #10b98108 100%)";
       "linear-gradient(135deg, #ef444415 0%, #ef444408 100%)";
       "linear-gradient(135deg, #10b98115 0%, #10b98108 100%)"] ∧
  (λ e, (edge_id e, source e, target e, stroke e)) <$> edges v
    = [("edge-1", "step-0", "step-1", "#ef444460");
       ("edge-2", "step-1", "step-2", "#10b98160")].
Proof. repeat split. Qed.

(** ** Reading a step index back from a node identifier *)

Fixpoint decimal (s : string) : bool :=
  match s with
  | "" => true
  | String c rest =>
      ((48 <=? N_of_ascii c) && (N_of_ascii c <=? 57))%N && decimal rest
  end.

Lemma pretty_N_char_decimal d :
  (d < 10)%N →
  digit_value (pretty_N_char d) = Some d ∧
  ((48 <=? N_of_ascii (pretty_N_char d))
   && (N_of_ascii (pretty_N_char d) <=? 57))%N = true.
Proof.
  intros Hd.
  assert (d = 0 ∨ d = 1 ∨ d = 2 ∨ d = 3 ∨ d = 4 ∨ d = 5 ∨ d = 6 ∨ d = 7
          ∨ d = 8 ∨ d = 9)%N as H by lia.
  repeat (destruct H as [->|H]; [by split |]). subst. by split.
Qed.

Lemma pretty_N_go_decimal x s :
  decimal s = true → decimal (pretty_N_go x s) = true.
Proof.
  revert s. induction (N.lt_wf_0 x) as [x _ IH]; intros s Hs.
  assert (x = 0 ∨ 0 < x)%N as [->|Hx] by lia.
  - by rewrite pretty_N_go_0.
  - rewrite pretty_N_go_step by done. apply IH.
    + by apply N.div_lt.
    + simpl. rewrite Hs, andb_true_r.
      apply pretty_N_char_decimal. by apply N.mod_lt.
Qed.

Lemma pretty_N_go_head x s :
  (0 < x)%N → ∃ c rest, pretty_N_go x s = String c rest.
Proof.
  revert s. induction (N.lt_wf_0 x) as [x _ IH]; intros s Hx.
  rewrite pretty_N_go_step by done.
  destruct (decide (x `div` 10 = 0)%N) as [->|Hd%N.neq_0_lt_0].
  - rewrite pretty_N_go_0. eauto.
  - apply IH; [by apply N.div_lt | done].
Qed.

Lemma read_digits_pretty x s acc :
  (0 < x)%N →
  ∃ m, read_digits 10 (pretty_N_go x s) acc
       = read_digits 10 s (Some (default 0 acc * m + x))%N.
Proof.
  revert s acc. induction (N.lt_wf_0 x) as [x _ IH]; intros s acc Hx.
  rewrite pretty_N_go_step by done.
  pose proof (pretty_N_char_decimal (x `mod` 10)) as [Hv _];
    [by apply N.mod_lt |].
  assert (Hlt : (x `mod` 10 <? 10)%N = true)
    by (apply N.ltb_lt; by apply N.mod_lt).
  pose proof (N.div_mod x 10 ltac:(done)) as Hdm.
  destruct (decide (x `div` 10 = 0)%N) as [Hd|Hd%N.neq_0_lt_0].
  - rewrite Hd, pretty_N_go_0. cbn [read_digits]. rewrite Hv, Hlt.
    exists 10%N. do 2 f_equal. rewrite Hd in Hdm. lia.
  - destruct (IH (x `div` 10)%N (N.div_lt x 10 Hx eq_refl)
                (String (pretty_N_char (x `mod` 10)) s) acc Hd) as [m ->].
    cbn [read_digits]. rewrite Hv, Hlt. cbn [default].
    exists (10 * m)%N. do 2 f_equal.
    generalize dependent (x `div` 10)%N. generalize (x `mod` 10)%N.
    intros r q; intros. subst x. unfold id.
    generalize (default 0%N acc). intros a. nia.
Qed.

(** On a string of decimal digits [parseInt] skips nothing, finds no sign
    and no [0x], and reads the digits in radix 10. *)
Lemma parseInt_decimal c rest :
  decimal (String c rest) = true →
  parseInt (String c rest) = Z.of_N <$> read_digits 10 (String c rest) None.
Proof.
  intros Hd. cbn [decimal] in Hd.
  apply andb_true_iff in Hd as [Hc Hrest].
  destruct c as [[] [] [] [] [] [] [] []]; try discriminate Hc;
    try (unfold parseInt; cbn [skip_spaces is_space]; vm_compute is_space;
         by cbn).
  all: destruct rest as [|c' rest'];
    [by vm_compute |].
  all: cbn [decimal] in Hrest; apply andb_true_iff in Hrest as [Hc' _].
  all: destruct c' as [[] [] [] [] [] [] [] []]; try discriminate Hc';
    by vm_compute.
Qed.

Lemma parseInt_pretty (n : nat) : parseInt (pretty n) = Some (Z.of_nat n).
Proof.
  unfold pretty, pretty_nat, pretty, pretty_N.
  case_decide as Hn.
  - replace n with 0 by lia. by vm_compute.
  - assert (Hpos : (0 < N.of_nat n)%N) by lia.
    destruct (pretty_N_go_head (N.of_nat n) "" Hpos) as (c & rest & E).
    pose proof (pretty_N_go_decimal (N.of_nat n) "" eq_refl) as Hd.
    rewrite E in Hd. rewrite E, (parseInt_decimal c rest Hd), <- E.
    destruct (read_digits_pretty (N.of_nat n) "" None Hpos) as [m ->].
    cbn. f_equal. lia.
Qed.

Lemma split_decimal s : decimal s = true → split "-" s = [s].
Proof.
  induction s as [|c rest IH]; [done |]. cbn [decimal split].
  intros [Hc Hrest]%andb_true_iff. rewrite (IH Hrest).
  destruct c as [[] [] [] [] [] [] [] []]; try discriminate Hc; done.
Qed.

Lemma decimal_pretty (n : nat) : decimal (pretty n) = true.
Proof.
  unfold pretty, pretty_nat, pretty, pretty_N. case_decide; [done |].
  by apply pretty_N_go_decimal.
Qed.

Lemma clicked_index_step (i : nat) :
  clicked_index ("step-" +:+ pretty i) = Some (Z.of_nat i).
Proof.
  unfold clicked_index.
  change ("step-" +:+ pretty i)
    with (String "s" (String "t" (String "e" (String "p"
            (String "-" (pretty i)))))).
  cbn [split Ascii.eqb Bool.eqb]. rewrite (split_decimal _ (decimal_pretty i)).
  cbn [lookup list_lookup]. apply parseInt_pretty.
Qed.

(** X6.  A click on a node the builder made for step [i] hands [i] to
    [setSelectedStep]: splitting the identifier at the dashes and parsing
    its second part gives the index back. *)
Theorem click_reads_index_back sel items w i n :
  objects items →
  nodes (ui (snd (updateFlow sel (JArr items) w))) !! i = Some n →
  clicked_index (node_id n) = Some (Z.of_nat i).
Proof.
  intros Hobj. rewrite updateFlow_objects by done. simpl.
  unfold all_nodes. rewrite list_lookup_imap.
  destruct (items !! i) as [step|]; [| done]. intros [= <-].
  apply clicked_index_step.
Qed.

Lemma click_reads_index_back_witness :
  objects scenario ∧
  ∃ n,
    nodes (ui (snd (updateFlow None (JArr scenario) initial))) !! 2 = Some n ∧
    node_id n = "step-2" ∧
    clicked_index (node_id n) = Some 2%Z.
Proof.
  split; [apply objects_scenario |].
  destruct (nodes (ui (snd (updateFlow None (JArr scenario) initial))) !! 2)
    as [n|] eqn:E; [| discriminate E].
  exists n. split; [reflexivity |]. split.
  - injection E as <-. reflexivity.
  - apply (click_reads_index_back None scenario initial 2 n
             objects_scenario E).
Defined.

(** ** Which node is highlighted *)

Lemma highlighted_node_at sel j step :
  highlighted (node_at sel j step) ↔ sel = Some j.
Proof.
  unfold highlighted. simpl. case_bool_decide as Hsel.
  - split; [done |]. intros _. by split.
  - split; [| done]. intros [_ Hshadow]. discriminate Hshadow.
Qed.

(** X7.  Among the nodes the builder shows, the node of step [j] carries the
    highlight exactly when [j] is the selected index: at most one node is
    highlighted, and none when nothing is selected or when the selected
    index is past the last step. *)
Theorem highlight_marks_selection sel items w :
  objects items →
  let shown := nodes (ui (snd (updateFlow sel (JArr items) w))) in
  (∀ j n, shown !! j = Some n → (highlighted n ↔ sel = Some j)) ∧
  ((sel = None ∨ ∃ i, sel = Some i ∧ length items ≤ i) →
   Forall (λ n, ¬ highlighted n) shown).
Proof.
  intros Hobj shown.
  assert (Hshown : shown = all_nodes sel items)
    by (unfold shown; by rewrite updateFlow_objects).
  assert (Hj : ∀ j n, shown !! j = Some n →
                      (highlighted n ↔ sel = Some j) ∧ j < length items).
  { intros j n. rewrite Hshown. unfold all_nodes. rewrite list_lookup_imap.
    destruct (items !! j) as [step|] eqn:E; [| done]. intros [= <-].
    split; [apply highlighted_node_at | by eapply lookup_lt_Some]. }
  split; [intros j n H; by apply Hj |].
  intros Hsel. apply Forall_lookup. intros j n Hn.
  destruct (Hj j n Hn) as [Hh Hlt]. rewrite Hh.
  destruct Hsel as [->|(i & -> & Hi)]; [done |]. intros [= ->]. lia.
Qed.

Lemma highlight_marks_selection_witness :
  objects scenario ∧
  (∃ n, nodes (ui (snd (updateFlow (Some 1) (JArr scenario) initial))) !! 1
          = Some n ∧ highlighted n) ∧
  Forall (λ n, ¬ highlighted n)
    (nodes (ui (snd (updateFlow (Some 3) (JArr scenario) initial)))).
Proof.
  split; [apply objects_scenario |]. split.
  - destruct (highlight_marks_selection (Some 1) scenario initial
                objects_scenario) as [H _].
    destruct (nodes (ui (snd (updateFlow (Some 1) (JArr scenario) initial)))
                !! 1) as [n|] eqn:E; [| discriminate E].
    exists n. split; [reflexivity |]. by apply (H 1 n E).
  - destruct (highlight_marks_selection (Some 3) scenario initial
                objects_scenario) as [_ H].
    apply H. right. exists 3. split; [reflexivity | simpl; lia].
Defined.

(** ** What loading a trace changes *)

Lemma updateFlow_frame sel steps w :
  trace (ui (snd (updateFlow sel steps w))) = trace (ui w) ∧
  selectedStep (ui (snd (updateFlow sel steps w))) = selectedStep (ui w) ∧
  console (snd (updateFlow sel steps w)) = console w.
Proof.
  rewrite updateFlow_unfold.
  destruct (build_flow sel steps) as [[ns es]|e]; done.
Qed.

(** What [fetchTrace] does once the body is parsed to something that is
    not [null]. *)
Lemma fetchTrace_parsed env network traceId sel w data :
  network (apiUrl env +:+ "/api/traces/" +:+ traceId) = JsonResolves data →
  nullish data = false →
  fetchTrace env network traceId sel w =
  match build_flow sel (js_or (field data "steps") (JArr [])) with
  | Normal (ns, es) =>
      (Normal (),
       mkWorld (mkViewer data (selectedStep (ui w)) ns es) (console w))
  | Throw e =>
      (Normal (),
       mkWorld (mkViewer data (selectedStep (ui w)) (nodes (ui w))
                  (edges (ui w)))
               (console w ++ [("Failed to fetch trace:", e)]))
  end.
Proof.
  intros Hnet Hdata.
  unfold fetchTrace, try_catch, mbind, M_bind, bind, await_json.
  rewrite Hnet. cbn [ret setTrace]. unfold lift, get_prop. rewrite Hdata.
  rewrite updateFlow_unfold.
  destruct (build_flow sel _) as [[ns es]|e]; done.
Qed.

(** X8.  Loading a trace never touches the selection: the index selected in the
    trace shown before stays selected.  The console gets at most one new
    entry. *)
Theorem fetchTrace_keeps_selection env network traceId sel w :
  selectedStep (ui (snd (fetchTrace env network traceId sel w)))
    = selectedStep (ui w) ∧
  ∃ new, console (snd (fetchTrace env network traceId sel w))
           = console w ++ new ∧ length new ≤ 1.
Proof.
  destruct (network (apiUrl env +:+ "/api/traces/" +:+ traceId))
    as [e|e|data] eqn:Hnet.
  - unfold fetchTrace, try_catch, mbind, M_bind, bind, await_json.
    rewrite Hnet. simpl. split; [done |]. eexists. split; [done |]. simpl. lia.
  - unfold fetchTrace, try_catch, mbind, M_bind, bind, await_json.
    rewrite Hnet. simpl. split; [done |]. eexists. split; [done |]. simpl. lia.
  - destruct (nullish data) eqn:Hdata.
    + unfold fetchTrace, try_catch, mbind, M_bind, bind, await_json.
      rewrite Hnet. cbn [ret setTrace]. unfold lift, get_prop.
      rewrite Hdata. simpl. split; [done |].
      eexists. split; [done |]. simpl. lia.
    + rewrite (fetchTrace_parsed env network traceId sel w data Hnet Hdata).
      destruct (build_flow sel _) as [[ns es]|e]; simpl.
      * split; [done |]. exists []. rewrite app_nil_r. split; [done |].
        simpl. lia.
      * split; [done |]. eexists. split; [done |]. simpl. lia.
Qed.

(** X9.  A parsed body without steps (no [steps], or [null], an empty string,
    [0], [false]) is shown as the trace and empties the graph, without any
    error; so does the JSON body of an error response, since the status of
    the response is not looked at. *)
Theorem fetchTrace_without_steps_clears_graph env network traceId sel w data :
  network (apiUrl env +:+ "/api/traces/" +:+ traceId) = JsonResolves data →
  nullish data = false →
  truthy (field data "steps") = false →
  fetchTrace env network traceId sel w
  = (Normal (),
     mkWorld (mkViewer data (selectedStep (ui w)) [] []) (console w)).
Proof.
  intros Hnet Hdata Hsteps.
  rewrite (fetchTrace_parsed env network traceId sel w data Hnet Hdata).
  unfold js_or. by rewrite Hsteps.
Qed.

Lemma fetchTrace_without_steps_clears_graph_witness :
  let not_found := JObj [("detail", JStr "Trace not found")] in
  serving (apiUrl None +:+ "/api/traces/" +:+ "t-2")
    = JsonResolves not_found ∧
  nullish not_found = false ∧
  truthy (field not_found "steps") = false ∧
  length (nodes (ui scenario_loaded)) = 3 ∧
  fetchTrace None serving "t-2" None scenario_loaded
  = (Normal (), mkWorld (mkViewer not_found None [] []) []).
Proof.
  intros not_found. split; [reflexivity |]. split; [reflexivity |].
  split; [reflexivity |]. split; [reflexivity |].
  apply (fetchTrace_without_steps_clears_graph None serving "t-2" None
           scenario_loaded not_found); reflexivity.
Defined.

Lemma forEach_step_null sel items :
  Exists (λ v, nullish v = true) items →
  ∀ index ns es, forEach_step sel index items ns es = Throw TypeError.
Proof.
  induction items as [|step rest IH]; intros Hex index ns es.
  - by apply Exists_nil in Hex.
  - cbn [forEach_step]. unfold get_prop.
    destruct (nullish step) eqn:Hstep; [done |].
    apply IH. apply Exists_cons in Hex as [Hex|Hex]; [congruence | done].
Qed.

(** X10.  When the parsed body has steps the builder cannot walk (a truthy value
    that is no array, or an array holding [null]), the trace shown is
    replaced but the graph is not: the nodes and edges of the trace shown
    before stay, and a [TypeError] goes to the console. *)
Theorem fetchTrace_bad_steps_keeps_old_graph
    env network traceId sel w data :
  network (apiUrl env +:+ "/api/traces/" +:+ traceId) = JsonResolves data →
  nullish data = false →
  (truthy (field data "steps") = true ∧
   ∀ items, field data "steps" ≠ JArr items) ∨
  (∃ items, field data "steps" = JArr items ∧
            Exists (λ v, nullish v = true) items) →
  fetchTrace env network traceId sel w
  = (Normal (),
     mkWorld (mkViewer data (selectedStep (ui w)) (nodes (ui w))
                (edges (ui w)))
             (console w ++ [("Failed to fetch trace:", TypeError)])).
Proof.
  intros Hnet Hdata Hsteps.
  rewrite (fetchTrace_parsed env network traceId sel w data Hnet Hdata).
  destruct Hsteps as [[Ht Hn]|(items & Hi & Hex)].
  - unfold js_or. rewrite Ht.
    destruct (field data "steps") as [| | | | |items|]; try done.
    by destruct (Hn items).
  - rewrite Hi. unfold js_or. simpl.
    by rewrite (forEach_step_null sel items Hex).
Qed.

Lemma fetchTrace_bad_steps_keeps_old_graph_witness :
  let broken :=
    JObj [("name", JStr "other");
          ("steps", JArr [step_obj "A" "success"; JNull])] in
  let w' := snd (fetchTrace None (λ _, JsonResolves broken) "t-2" None
                   scenario_loaded) in
  Exists (λ v, nullish v = true) [step_obj "A" "success"; JNull] ∧
  trace (ui w') = broken ∧
  nodes (ui w') = nodes (ui scenario_loaded) ∧
  length (nodes (ui w')) = 3 ∧
  console w' = [("Failed to fetch trace:", TypeError)].
Proof.
  intros broken w'.
  assert (Hex : Exists (λ v, nullish v = true) [step_obj "A" "success"; JNull])
    by (apply Exists_cons_tl, Exists_cons_hd; reflexivity).
  split; [exact Hex |].
  unfold w'.
  rewrite (fetchTrace_bad_steps_keeps_old_graph None
             (λ _, JsonResolves broken) "t-2" None scenario_loaded broken
             eq_refl eq_refl).
  - repeat split.
  - right. exists [step_obj "A" "success"; JNull]. split; [reflexivity | exact Hex].
Defined.

(** ** The graph is well formed *)

Lemma edge_id_inj (i j : nat) :
  "edge-" +:+ pretty i = "edge-" +:+ pretty j → i = j.
Proof. intros H. apply (inj _) in H. by apply (inj pretty) in H. Qed.

(** X11.  The nodes the builder shows have pairwise different identifiers, so do
    the edges, and every edge joins two different nodes that are shown. *)
Theorem flow_is_well_formed sel items w :
  objects items →
  let v := ui (snd (updateFlow sel (JArr items) w)) in
  NoDup (node_id <$> nodes v) ∧
  NoDup (edge_id <$> edges v) ∧
  ∀ e, e ∈ edges v →
       source e ∈ (node_id <$> nodes v) ∧
       target e ∈ (node_id <$> nodes v) ∧
       source e ≠ target e.
Proof.
  intros Hobj v.
  assert (Hn : nodes v = all_nodes sel items)
    by (unfold v; by rewrite updateFlow_objects).
  assert (He : edges v = all_edges items)
    by (unfold v; by rewrite updateFlow_objects).
  rewrite Hn, He. clear v Hn He. split_and!.
  - apply NoDup_alt. intros i j id.
    unfold all_nodes. rewrite !list_lookup_fmap, !list_lookup_imap.
    destruct (items !! i) as [si|]; [| done].
    destruct (items !! j) as [sj|]; [| done]. simpl.
    intros E1 E2. apply step_id_inj. congruence.
  - apply NoDup_alt. intros i j id.
    unfold all_edges. rewrite !list_lookup_fmap, !list_lookup_imap.
    destruct (tail items !! i) as [si|]; [| done].
    destruct (tail items !! j) as [sj|]; [| done]. simpl.
    intros E1 E2. assert (S i = S j) by (apply edge_id_inj; congruence). lia.
  - intros e (i & step & Hi & Hstep & ->)%all_edges_elem. simpl.
    assert (Hlt : i < length items) by (by eapply lookup_lt_Some).
    destruct (lookup_lt_is_Some_2 items (i - 1)) as [prev Hprev]; [lia |].
    split_and!.
    + apply list_elem_of_lookup. exists (i - 1).
      unfold all_nodes. by rewrite list_lookup_fmap, list_lookup_imap, Hprev.
    + apply list_elem_of_lookup. exists i.
      unfold all_nodes. by rewrite list_lookup_fmap, list_lookup_imap, Hstep.
    + intros H%step_id_inj. lia.
Qed.

Lemma flow_is_well_formed_witness :
  objects scenario ∧
  node_id <$> nodes (ui (snd (updateFlow None (JArr scenario) initial)))
    = ["step-0"; "step-1"; "step-2"] ∧
  NoDup (node_id <$> nodes (ui (snd (updateFlow None (JArr scenario) initial)))) ∧
  NoDup (edge_id <$> edges (ui (snd (updateFlow None (JArr scenario) initial)))).
Proof.
  split; [apply objects_scenario |]. split; [reflexivity |].
  destruct (flow_is_well_formed None scenario initial objects_scenario)
    as (H1 & H2 & _).
  split; assumption.
Defined.

(** ** A click on a node *)



End TraceViewerFacts.

Module AppFacts.
Import Js App.

Section FetchTraces.
Variable null_access_message : string.

Local Abbreviation fetchTraces := (App.fetchTraces null_access_message).
Local Abbreviation step := (App.step null_access_message).
Local Abbreviation run := (App.run null_access_message).
Local Abbreviation reachable := (App.reachable null_access_message).

(** X13.  [fetchTraces] replaces the list only when the response has a status
    from 200 to 299 and its body parses to something other than [null]; the
    new list is then [data.traces || []].  A response with another status
    leaves the list as it is, even if its body is valid JSON, and logs the
    status. *)
Theorem fetchTraces_replaces_only_on_success r w :
  (traces (fetchTraces r w) ≠ traces w →
   ∃ response data,
     r = Responded response ∧
     200 ≤ status response ≤ 299 ∧
     body response = inr data ∧ nullish data = false ∧
     fetchTraces r w
       = mkApp (js_or (field data "traces") (JArr [])) (console w)) ∧
  (∀ response,
     r = Responded response →
     ¬ (200 ≤ status response ≤ 299) →
     fetchTraces r w
       = mkApp (traces w)
           (console w ++
            [("Failed to fetch traces:",
              mkError ("HTTP error! status: " +:+ pretty (status response)))])).
Proof.
  split.
  - unfold App.fetchTraces, fetchTraces_try.
    destruct r as [e|response].
    { intros H. destruct H. by destruct (String.eqb _ _). }
    destruct (ok response) eqn:Hok; simpl.
    2:{ intros H. by destruct H. }
    destruct (body response) as [e|data] eqn:Hbody.
    { intros H. destruct H. by destruct (String.eqb _ _). }
    destruct (nullish data) eqn:Hnull.
    { intros H. destruct H. by destruct (String.eqb _ _). }
    intros _. exists response, data. split_and!; try done.
    + unfold ok in Hok. apply andb_true_iff in Hok as [H1 H2].
      apply Nat.leb_le in H1. by apply Nat.leb_le in H2.
    + unfold ok in Hok. apply andb_true_iff in Hok as [H1 H2].
      by apply Nat.leb_le in H2.
  - intros response -> Hstatus. unfold App.fetchTraces, fetchTraces_try.
    assert (ok response = false) as ->.
    { unfold ok. destruct (200 <=? status response) eqn:H1; [| done].
      destruct (status response <=? 299) eqn:H2; [| done].
      apply Nat.leb_le in H1. apply Nat.leb_le in H2. by destruct Hstatus. }
    reflexivity.
Qed.

(** X14.  A rejection whose message is exactly [Failed to fetch] leaves no trace
    at all: neither the list nor the console changes.  Every other
    rejection of [fetch] or of [json()] leaves the list and adds one entry
    to the console. *)
Theorem fetchTraces_silent_on_network_failure e w :
  (message e = "Failed to fetch" → fetchTraces (Rejected e) w = w) ∧
  (message e ≠ "Failed to fetch" →
   fetchTraces (Rejected e) w
     = mkApp (traces w) (console w ++ [("Failed to fetch traces:", e)])) ∧
  (∀ code, 200 ≤ code ≤ 299 →
     fetchTraces (Responded (mkResponse code (inl e))) w
       = fetchTraces (Rejected e) w).
Proof.
  split_and!.
  - intros Hm. unfold App.fetchTraces. simpl. rewrite Hm. by destruct w.
  - intros Hm. unfold App.fetchTraces. simpl.
    apply String.eqb_neq in Hm. by rewrite Hm.
  - intros code [H1 H2]. unfold App.fetchTraces, fetchTraces_try, ok.
    cbn [status body].
    apply Nat.leb_le in H1. apply Nat.leb_le in H2. by rewrite H1, H2.
Qed.

(** The only live timer is the one the mounted effect holds. *)
Definition held (s : loop) : Prop :=
  ∀ h p, timers s !! h = Some p → interval s = Some h.

Lemma held_step s e s' acts : held s → step s e = Some (s', acts) → held s'.
Proof.
  intros K. destruct e as [| |h|r]; simpl.
  - destruct (interval s) eqn:Ei; [done |]. intros [= <- _].
    intros h p. simpl. rewrite lookup_insert. case_decide; [by subst |].
    intros H'%K. congruence.
  - destruct (interval s) as [h0|] eqn:Ei; [| done]. intros [= <- _].
    intros h p. simpl. rewrite lookup_delete. case_decide; [done |].
    intros H'%K. congruence.
  - destruct (timers s !! h); [| done]. by intros [= <- _].
  - destruct (pending s); [done |]. by intros [= <- _].
Qed.

Lemma reachable_held s : reachable s → held s.
Proof.
  induction 1 as [|s e s' acts _ IH Hstep].
  - intros h p. simpl. by rewrite lookup_empty.
  - by eapply held_step.
Qed.

Lemma unmounted_quiet s es s' acts :
  held s → interval s = None →
  Forall (λ e, e ≠ RunEffect) es →
  run s es = Some (s', acts) →
  acts = [] ∧ timers s' = ∅.
Proof.
  intros K Hi Hes. revert s s' acts K Hi.
  induction Hes as [|e es He _ IH]; intros s s' acts K Hi; simpl.
  - intros [= <- <-]. split; [done |]. apply map_empty. intros h.
    destruct (timers s !! h) as [p|] eqn:Eh; [| done].
    apply K in Eh. congruence.
  - destruct (step s e) as [[s1 a1]|] eqn:E1; [| done].
    destruct (run s1 es) as [[s2 a2]|] eqn:E2; [| done].
    intros [= <- <-].
    assert (a1 = [] ∧ interval s1 = None) as [-> Hi1].
    { destruct e as [| |h|r]; simpl in E1.
      - done.
      - by rewrite Hi in E1.
      - destruct (timers s !! h) as [p|] eqn:Eh; [| done].
        apply K in Eh. congruence.
      - destruct (pending s); [done |]. by injection E1 as <- <-. }
    apply (IH s1 s2 a2); [by eapply held_step | done | done].
Qed.

(** X15.  The polling effect of [App] does stop: once its cleanup has run no
    timer is live, and whatever fetches are still under way and however
    they settle, nothing is fetched or armed until the effect runs again. *)
Theorem app_teardown s s1 a1 es s2 acts :
  reachable s →
  step s Cleanup = Some (s1, a1) →
  Forall (λ e, e ≠ RunEffect) es →
  run s1 es = Some (s2, acts) →
  timers s1 = ∅ ∧ acts = [] ∧ timers s2 = ∅.
Proof.
  intros R Hstep Hes Hrun.
  assert (K1 : held s1) by (eapply held_step; [by apply reachable_held | done]).
  assert (Hi1 : interval s1 = None).
  { simpl in Hstep. destruct (interval s); [| done]. by injection Hstep as <- _. }
  split; [| by apply (unmounted_quiet s1 es s2 acts)].
  apply map_empty. intros h.
  destruct (timers s1 !! h) as [p|] eqn:Eh; [| done].
  apply K1 in Eh. congruence.
Qed.

End FetchTraces.

Lemma fetchTraces_replaces_only_on_success_witness :
  let not_found :=
    Responded (mkResponse 404 (inr (JObj [("traces", JArr [JStr "x"])]))) in
  ¬ (200 ≤ 404 ≤ 299) ∧
  traces (App.fetchTraces "data is null" not_found initial) = traces initial ∧
  console (App.fetchTraces "data is null" not_found initial)
    = [("Failed to fetch traces:", mkError "HTTP error! status: 404")].
Proof.
  intros not_found. split; [lia |].
  destruct (fetchTraces_replaces_only_on_success "data is null" not_found initial) as [_ H].
  rewrite (H _ eq_refl) by (simpl; lia). split; reflexivity.
Defined.

Lemma fetchTraces_silent_on_network_failure_witness :
  message (mkError "Failed to fetch") = "Failed to fetch" ∧
  message (mkError "Unexpected token < in JSON") ≠ "Failed to fetch" ∧
  App.fetchTraces "data is null" (Rejected (mkError "Failed to fetch")) initial
    = initial ∧
  console (App.fetchTraces "data is null"
             (Responded (mkResponse 200
                           (inl (mkError "Unexpected token < in JSON"))))
             initial)
    = [("Failed to fetch traces:", mkError "Unexpected token < in JSON")].
Proof.
  split; [reflexivity |]. split; [discriminate |].
  destruct (fetchTraces_silent_on_network_failure "data is null"
              (mkError "Failed to fetch") initial) as (H1 & _ & _).
  destruct (fetchTraces_silent_on_network_failure "data is null"
              (mkError "Unexpected token < in JSON") initial)
    as (_ & H2 & H3).
  split; [apply H1; reflexivity |].
  rewrite (H3 200) by lia. rewrite H2 by discriminate. reflexivity.
Defined.

Lemma app_teardown_witness :
  ∃ s s1 s2,
    run "data is null" start [RunEffect; TimerFires 1]
      = Some (s, [Poller.CallFetch; Poller.SetInterval 1 10000%Q;
                  Poller.CallFetch]) ∧
    reachable "data is null" s ∧ pending s = 2 ∧
    step "data is null" s Cleanup = Some (s1, [Poller.ClearInterval 1]) ∧
    run "data is null" s1
      [Settles (Rejected (mkError "Failed to fetch"));
       Settles (Responded (mkResponse 200 (inr (JObj []))))]
      = Some (s2, []) ∧
    timers s1 = ∅ ∧ timers s2 = ∅.
Proof.
  destruct (run "data is null" start [RunEffect; TimerFires 1])
    as [[s a]|] eqn:E; [| vm_compute in E; discriminate E].
  assert (R : reachable "data is null" s).
  { simpl in E.
    eapply (reachable_step _ _ (TimerFires 1));
      [eapply (reachable_step _ start RunEffect);
         [apply reachable_start | reflexivity] |].
    vm_compute in E. injection E as <- _. vm_compute. reflexivity. }
  destruct (step "data is null" s Cleanup) as [[s1 a1]|] eqn:E1;
    [| vm_compute in E; injection E as <- _; vm_compute in E1;
       discriminate E1].
  destruct (run "data is null" s1
              [Settles (Rejected (mkError "Failed to fetch"));
               Settles (Responded (mkResponse 200 (inr (JObj []))))])
    as [[s2 a2]|] eqn:E2;
    [| vm_compute in E; injection E as <- _; vm_compute in E1;
       injection E1 as <- _; vm_compute in E2; discriminate E2].
  destruct (app_teardown "data is null" s s1 a1
              [Settles (Rejected (mkError "Failed to fetch"));
               Settles (Responded (mkResponse 200 (inr (JObj []))))]
              s2 a2 R E1) as (H1 & -> & H2);
    [repeat constructor; discriminate | exact E2 |].
  exists s, s1, s2.
  vm_compute in E. injection E as <- <-.
  vm_compute in E1. injection E1 as <- <-.
  split_and!; try reflexivity; try assumption.
Defined.

Lemma handleMouse_bounds e s :
  (200 <= sidebarWidth s)%Q ∧ (sidebarWidth s <= 800)%Q →
  (200 <= sidebarWidth (handleMouse e s))%Q ∧
  (sidebarWidth (handleMouse e s) <= 800)%Q.
Proof.
  intros B. destruct e as [|x|]; simpl; try done.
  destruct (isResizing s); simpl; [| done].
  destruct (Qle_bool 200 x) eqn:E1; simpl; [| done].
  destruct (Qle_bool x 800) eqn:E2; simpl; [| done].
  split; by apply Qle_bool_iff.
Qed.

Lemma handleMouse_origin e s :
  sidebarWidth (handleMouse e s) = sidebarWidth s ∨
  e = MouseMove (sidebarWidth (handleMouse e s)).
Proof.
  destruct e as [|x|]; simpl; try by left.
  destruct (isResizing s); simpl; [| by left].
  destruct (Qle_bool 200 x && Qle_bool x 800); simpl; [by right | by left].
Qed.

Lemma handleMice_invariant es s0 :
  (200 <= sidebarWidth s0)%Q ∧ (sidebarWidth s0 <= 800)%Q →
  ((200 <= sidebarWidth (handleMice es s0))%Q ∧
   (sidebarWidth (handleMice es s0) <= 800)%Q) ∧
  (sidebarWidth (handleMice es s0) = sidebarWidth s0 ∨
   MouseMove (sidebarWidth (handleMice es s0)) ∈ es).
Proof.
  revert s0. induction es as [|e es IH]; intros s0 B; [by auto |].
  change (handleMice (e :: es) s0) with (handleMice es (handleMouse e s0)).
  destruct (IH (handleMouse e s0) (handleMouse_bounds e s0 B)) as [B' O].
  split; [done |]. destruct O as [O|O].
  - rewrite O. destruct (handleMouse_origin e s0) as [E|E]; [by left |].
    right. rewrite <- E. apply list_elem_of_here.
  - right. by apply list_elem_of_further.
Qed.

Lemma handleMice_idle xs s0 :
  isResizing s0 = false → handleMice (MouseMove <$> xs) s0 = s0.
Proof.
  revert s0. induction xs as [|x xs IH]; intros s0 Hr; [done |].
  change (handleMice (MouseMove <$> x :: xs) s0)
    with (handleMice (MouseMove <$> xs) (handleMouse (MouseMove x) s0)).
  simpl. rewrite Hr. simpl. by apply IH.
Qed.

(** X16.  The width of the sidebar is always between 200 and 800: it is the
    initial 320 or the position of a mouse move of the events handled; mouse
    moves after the button was released change nothing. *)
Theorem sidebar_width_bounded es :
  let s := handleMice es sidebar_initial in
  (200 <= sidebarWidth s)%Q ∧ (sidebarWidth s <= 800)%Q ∧
  (sidebarWidth s = 320%Q ∨ MouseMove (sidebarWidth s) ∈ es) ∧
  (∀ xs, handleMice (es ++ MouseUp :: (MouseMove <$> xs)) sidebar_initial
         = handleMice (es ++ [MouseUp]) sidebar_initial).
Proof.
  intros s.
  destruct (handleMice_invariant es sidebar_initial) as [[B1 B2] O];
    [simpl; split; lra |].
  split_and!; try done.
  intros xs. unfold handleMice. rewrite !fold_left_app. simpl.
  apply handleMice_idle. done.
Qed.

End AppFacts.

